(** * psych_git.py: the sequential background selector, the quote generator
      and the tag brainstormer

    A shallow embedding of the three pieces of [psych_git.py] that carry
    logic of their own:

    - the round-robin selection of a background video inside
      [generate_video_with_music] (state kept in
      [psych_temp/last_video_index.txt]),
    - the retry loop and response parser of [create_quote_content],
    - the comma splitting of [generate_extra_tags].

    Python text is a [string] holding the UTF-8 encoding of the text; the
    builtins the script calls ([str.split], [str.replace], [str.strip],
    [str.join], [str.endswith], [int], [str]) are written out below.
    External services (the spreadsheet, the text-generation model, the random
    generator) are oracles of an environment record; every call to one of
    them is recorded in an event log.

    The rest of the script (the media check, the video stage around the
    selector, the upload stage, the logging and the main block) is embedded
    in [Driver], over the same definitions. *)

From Stdlib Require Import ZArith QArith String Ascii List Lia Permutation.
From stdpp Require Import base option list gmap strings sorting.

Close Scope Q_scope.

(** ** Python builtins *)

Module Py.

(** Exceptions raised in the modelled code; all of them are subclasses of
    [Exception].  [exit] raises [SystemExit], which is not: it is a separate
    outcome wherever it can happen. *)
Inductive exn : Type :=
  | ValueError
  | IndexError
  | ZeroDivisionError
  | FileNotFoundError
  | OtherError (msg : string).

Inductive result (A : Type) : Type :=
  | Ok (a : A)
  | Raise (e : exn).
Arguments Ok {A} a.
Arguments Raise {A} e.

(** A statement after a raising one is not run: [x ← m; k]. *)
#[global] Instance result_bind : MBind result :=
  fun _ _ f m => match m with Ok a => f a | Raise e => Raise e end.

Definition bytes (l : list nat) : string :=
  string_of_list_ascii (map ascii_of_nat l).

(** The line feed and the double quote. *)
Definition nl : string := bytes [10].
Definition dq : string := bytes [34].

(** The characters [str.strip] and [int] treat as white space
    (Py_UNICODE_ISSPACE), as UTF-8 byte sequences: U+0009..U+000D,
    U+001C..U+0020, U+0085, U+00A0, U+1680, U+2000..U+200A, U+2028, U+2029,
    U+202F, U+205F, U+3000. *)
Definition whitespace : list string :=
  map bytes
    [ [9]; [10]; [11]; [12]; [13]; [28]; [29]; [30]; [31]; [32];
      [194; 133]; [194; 160]; [225; 154; 128];
      [226; 128; 128]; [226; 128; 129]; [226; 128; 130]; [226; 128; 131];
      [226; 128; 132]; [226; 128; 133]; [226; 128; 134]; [226; 128; 135];
      [226; 128; 136]; [226; 128; 137]; [226; 128; 138];
      [226; 128; 168]; [226; 128; 169]; [226; 128; 175];
      [226; 129; 159]; [227; 128; 128] ].

Definition is_whitespace (s : string) : bool :=
  existsb (String.eqb s) whitespace.

(** Number of bytes of the white-space character [s] starts with, 0 if it
    starts with none. *)
Definition ws_prefix_len (s : string) : nat :=
  match List.find (fun w => String.prefix w s) whitespace with
  | Some w => String.length w
  | None => 0
  end.

Fixpoint lstrip_go (skip : nat) (s : string) : string :=
  match s with
  | EmptyString => EmptyString
  | String _ s' =>
      match skip with
      | S k => lstrip_go k s'
      | O =>
          match ws_prefix_len s with
          | O => s
          | S k => lstrip_go k s'
          end
      end
  end.

Definition lstrip (s : string) : string := lstrip_go 0 s.

Fixpoint rstrip (s : string) : string :=
  match s with
  | EmptyString => EmptyString
  | String c s' =>
      let r := String c (rstrip s') in
      if is_whitespace r then EmptyString else r
  end.

(** [s.strip()] *)
Definition strip (s : string) : string := rstrip (lstrip s).

(** What [strip] is to achieve, stated without the scanner: [blank s] when
    [s] is a run of white-space characters, and [trimmed s t] when [t] is
    [s] without the blank runs at its two ends. *)
Inductive blank : string → Prop :=
  | blank_empty : blank EmptyString
  | blank_cons (w s : string) : In w whitespace → blank s → blank (w +:+ s).

Definition ends_clean (t : string) : Prop :=
  ∀ w, In w whitespace →
    String.prefix w t = false ∧ ∀ x, t ≠ x +:+ w.

Definition trimmed (s t : string) : Prop :=
  (∃ l r, s = l +:+ t +:+ r ∧ blank l ∧ blank r) ∧ ends_clean t.

(** [s.split(sep)] for a non-empty [sep] (every separator of the script is a
    literal): the text is cut at each occurrence of [sep], found from the
    left and not overlapping.  [split_go] returns the piece being read and
    the pieces after it; [skip] counts the bytes of a separator that was
    just matched and are still to be dropped. *)
Fixpoint split_go (sep : string) (skip : nat) (s : string) : string * list string :=
  match s with
  | EmptyString => (EmptyString, [])
  | String c s' =>
      match skip with
      | S k => split_go sep k s'
      | O =>
          if String.prefix sep s
          then (EmptyString,
                let (p, ps) := split_go sep (String.length sep - 1) s' in p :: ps)
          else let (p, ps) := split_go sep 0 s' in (String c p, ps)
      end
  end.

Definition split (sep s : string) : list string :=
  let (p, ps) := split_go sep 0 s in p :: ps.

(** Number of positions of [s] at which [sep] starts. *)
Fixpoint occurrences (sep s : string) : nat :=
  (if String.prefix sep s then 1 else 0)
  + match s with
    | EmptyString => 0
    | String _ s' => occurrences sep s'
    end.

(** [m] has no border: no proper end of [m] is a beginning of [m], so that
    two occurrences of [m] in a text never overlap. *)
Definition borderless (m : string) : Prop :=
  ∀ x v, x ≠ EmptyString → v ≠ EmptyString → m = x +:+ v → String.prefix v m = false.

(** [s.replace(old, new)] for a non-empty [old]. *)
Fixpoint replace_go (old new : string) (skip : nat) (s : string) : string :=
  match s with
  | EmptyString => EmptyString
  | String c s' =>
      match skip with
      | S k => replace_go old new k s'
      | O =>
          if String.prefix old s
          then new +:+ replace_go old new (String.length old - 1) s'
          else String c (replace_go old new 0 s')
      end
  end.

Definition replace (old new s : string) : string := replace_go old new 0 s.

(** [sep.join(l)] *)
Fixpoint join (sep : string) (l : list string) : string :=
  match l with
  | [] => EmptyString
  | [x] => x
  | x :: l' => x +:+ sep +:+ join sep l'
  end.

(** [s.endswith(suffix)] *)
Fixpoint endswith (s suffix : string) : bool :=
  String.eqb s suffix
  || match s with
     | EmptyString => false
     | String _ s' => endswith s' suffix
     end.

(** [l[i]]: a negative index counts from the end, an index out of range
    raises [IndexError]. *)
Definition getitem {A} (l : list A) (i : Z) : result A :=
  let n := Z.of_nat (length l) in
  let j := if (i <? 0)%Z then (i + n)%Z else i in
  if ((0 <=? j) && (j <? n))%Z
  then match l !! Z.to_nat j with Some x => Ok x | None => Raise IndexError end
  else Raise IndexError.

(** [random.choice(l)], the generator drawing [r]. *)
Definition choice {A} (r : nat) (l : list A) : result A :=
  match l with
  | [] => Raise IndexError
  | _ => getitem l (Z.of_nat (r mod length l))
  end.

(** [a % b] on integers: the result has the sign of [b]. *)
Definition mod_ (a b : Z) : result Z :=
  if (b =? 0)%Z then Raise ZeroDivisionError else Ok (a mod b)%Z.

(** Decimal digits. *)
Definition digit_char (d : Z) : ascii := ascii_of_nat (48 + Z.to_nat d).

Definition digit_val (c : ascii) : option Z :=
  let n := nat_of_ascii c in
  if (48 <=? n)%nat && (n <=? 57)%nat then Some (Z.of_nat (n - 48)) else None.

Definition is_digit (c : ascii) : bool :=
  match digit_val c with Some _ => true | None => false end.

Fixpoint all_digits (s : string) : bool :=
  match s with
  | EmptyString => true
  | String c s' => is_digit c && all_digits s'
  end.

(** Printable ASCII other than the space. *)
Definition is_plain (c : ascii) : bool :=
  (33 <=? nat_of_ascii c)%nat && (nat_of_ascii c <=? 126)%nat.

Fixpoint all_plain (s : string) : bool :=
  match s with
  | EmptyString => true
  | String c s' => is_plain c && all_plain s'
  end.

(** [str(n)]: decimal, no leading zero, [-] for a negative number. *)
Fixpoint digits_of (fuel : nat) (n : Z) : string :=
  match fuel with
  | O => EmptyString
  | S f =>
      (if (n <? 10)%Z then EmptyString else digits_of f (n / 10)%Z)
      +:+ String (digit_char (n mod 10)%Z) EmptyString
  end.

Definition str (n : Z) : string :=
  if (n <? 0)%Z
  then String "-" (digits_of (S (Z.to_nat (Z.log2 (- n)))) (- n))
  else digits_of (S (Z.to_nat (Z.log2 n))) n.

(** [int(s)] on text: white space around the literal is dropped, then an
    optional sign, then decimal digits that a single underscore may separate.
    The scanner's state is the value read so far and whether the last
    character was a digit.  Only the ASCII digits are covered (Python also
    reads the decimal digits of other scripts), and the interpreter's limit
    on the length of a literal is not modelled. *)
Fixpoint scan_digits (acc : Z) (after_digit : bool) (s : string) : option (Z * bool) :=
  match s with
  | EmptyString => Some (acc, after_digit)
  | String c s' =>
      if Ascii.eqb c "_"
      then if after_digit then scan_digits acc false s' else None
      else match digit_val c with
           | Some d => scan_digits (10 * acc + d)%Z true s'
           | None => None
           end
  end.

Definition int_digits (s : string) : option Z :=
  match scan_digits 0 false s with
  | Some (v, true) => Some v
  | _ => None
  end.

Definition int (s : string) : result Z :=
  let t := strip s in
  let r :=
    match t with
    | String "+" t' => int_digits t'
    | String "-" t' => Z.opp <$> int_digits t'
    | _ => int_digits t
    end in
  match r with
  | Some v => Ok v
  | None => Raise ValueError
  end.

End Py.

(** ** The sequential selector of [generate_video_with_music] *)

Module Selector.
Import Py.

(** A folder is the finite map from the names of its files to their text,
    [gmap string string]. *)
Definition music_folder : string := "psych_music".
Definition background_video_folder : string := "psych_temp".

(** [state_file = 'psych_temp/last_video_index.txt']: the state file lives in
    the folder of the background videos, under this name. *)
Definition state_file : string := "last_video_index.txt".

(** [os.listdir]: the names in the folder, in an order the caller cannot
    rely on; a folder that does not exist raises. *)
Definition listdir (folder : option (gmap string string)) : result (list string) :=
  match folder with
  | Some dir => Ok (map_to_list dir).*1
  | None => Raise FileNotFoundError
  end.

(** [sorted] on names: code-point order, which is byte order on UTF-8. *)
Definition sorted (l : list string) : list string := merge_sort String.le l.

(** [os.path.join(folder, name)] for a relative [name] (POSIX separator). *)
Definition path_join (folder name : string) : string := folder +:+ "/" +:+ name.

Definition available_videos (dir : gmap string string) : list string :=
  sorted (filter (fun f => endswith f ".mp4" = true) (map_to_list dir).*1).

(** Lines 175-179: [-1] unless the state file exists and holds an integer;
    only [ValueError] is caught. *)
Definition last_index (dir : gmap string string) : result Z :=
  match dir !! state_file with
  | Some txt =>
      match int txt with
      | Ok n => Ok n
      | Raise ValueError => Ok (-1)%Z
      | Raise e => Raise e
      end
  | None => Ok (-1)%Z
  end.

Inductive halt : Type :=
  | NoBackgroundVideos
  | MediaError (e : exn).

Inductive outcome (A : Type) : Type :=
  | Return (a : A)
  | Exit (h : halt).
Arguments Return {A} a.
Arguments Exit {A} h.

Record selection : Type := {
  next_index : Z;
  chosen_video_path : string;
  folder_after : gmap string string
}.

(** Lines 169-185 on an existing folder: the index after the stored one,
    modulo the number of candidates, is chosen and written back. *)
Definition select_step (dir : gmap string string) (videos : list string) : result selection :=
  last ← last_index dir;
  next ← mod_ (last + 1)%Z (Z.of_nat (length videos));
  name ← getitem videos next;
  Ok {| next_index := next;
        chosen_video_path := path_join background_video_folder name;
        folder_after := <[state_file := str next]> dir |}.

Definition sequential_selector (dir : gmap string string) : outcome selection :=
  let videos := available_videos dir in
  match videos with
  | [] => Exit NoBackgroundVideos
  | _ =>
      match select_step dir videos with
      | Ok s => Return s
      | Raise e => Exit (MediaError e)
      end
  end.

Record files : Type := {
  psych_music : option (gmap string string);
  psych_temp : option (gmap string string)
}.

(** The [try] block of [generate_video_with_music] (lines 162-190): a piece
    of music drawn at random, then the sequential selector; every exception
    ends the process. *)
Definition choose_media (r : nat) (fs : files) : outcome (string * selection) :=
  match (names ← listdir (psych_music fs);
         music ← choice r (filter (fun f => endswith f ".mp3" = true) names);
         _ ← listdir (psych_temp fs);
         Ok (path_join music_folder music)) with
  | Raise e => Exit (MediaError e)
  | Ok chosen_music_path =>
      match psych_temp fs with
      | None => Exit (MediaError FileNotFoundError)
      | Some dir =>
          match sequential_selector dir with
          | Return s => Return (chosen_music_path, s)
          | Exit h => Exit h
          end
      end
  end.

(** The indices returned by [k] runs one after the other, each starting
    from the folder the run before left. *)
Fixpoint successive_runs (k : nat) (dir : gmap string string) : list Z :=
  match k with
  | O => []
  | S k' =>
      match sequential_selector dir with
      | Return s => next_index s :: successive_runs k' (folder_after s)
      | Exit _ => []
      end
  end.

End Selector.

(** ** The quote generator and the tag brainstormer *)

Module Generator.
Import Py.

(** The reply of the text-generation service; reading [response.text]
    raises when the reply carries no text. *)
Record response : Type := { text : result string }.

Record GenerationConfig : Type := { temperature : Q }.

(** The outside world: what the [k]-th read of a spreadsheet column, the
    [k]-th draw of the random generator and the [k]-th call of the model
    answer (each counted from 0). *)
Record env : Type := {
  sheet_col_values : nat → nat → result (list string);
  random_draw : nat → nat;
  gemini_generate_content : nat → string → GenerationConfig → result response
}.

Inductive event : Type :=
  | SheetRead (col : nat)
  | RandomChoice
  | GenerateContent (prompt : string) (config : GenerationConfig).

Definition is_read (ev : event) : bool :=
  match ev with SheetRead _ => true | _ => false end.
Definition is_draw (ev : event) : bool :=
  match ev with RandomChoice => true | _ => false end.
Definition is_generate (ev : event) : bool :=
  match ev with GenerateContent _ _ => true | _ => false end.

Definition reads (log : list event) : nat := length (List.filter is_read log).
Definition draws (log : list event) : nat := length (List.filter is_draw log).
Definition generations (log : list event) : nat := length (List.filter is_generate log).

Definition prompts (log : list event) : list string :=
  omap (fun ev => match ev with GenerateContent p _ => Some p | _ => None end) log.

(** Code that calls the outside world: from the log of the calls made so
    far to a value or an exception, and the log extended. *)
Definition M (A : Type) : Type := list event → result A * list event.

#[global] Instance M_ret : MRet M := fun _ a log => (Ok a, log).

#[global] Instance M_bind : MBind M :=
  fun _ _ f m log =>
    match m log with
    | (Ok a, log') => f a log'
    | (Raise e, log') => (Raise e, log')
    end.

Definition lift {A} (r : result A) : M A := fun log => (r, log).

(** [try: body  except Exception as e: handler] *)
Definition try_except {A} (body : M A) (handler : exn → M A) : M A :=
  fun log =>
    match body log with
    | (Ok a, log') => (Ok a, log')
    | (Raise e, log') => handler e log'
    end.

Definition MAX_ATTEMPTS : nat := 5.

Definition themes : list string :=
  [ "Cognitive Dissonance"; "Confirmation Bias"; "The Dunning-Kruger Effect";
    "Imposter Syndrome"; "The Paradox of Choice"; "Cognitive Biases";
    "The Placebo Effect"; "Emotional Intelligence"; "The Subconscious Mind";
    "Memory and Perception"; "Neuroplasticity"; "Behavioral Psychology" ].

Definition master_prompt (chosen_theme history_list : string) : string :=
  String.concat nl
    [ "";
      "        You are an AI that creates insightful, two-part quotes about human psychology.";
      "        Your quote MUST be about the specific theme of: **" +:+ chosen_theme +:+ "**.";
      "        CRITICAL RULES:";
      "        1. Your language MUST be simple and easy to understand. Avoid jargon.";
      "        2. The first part is a " +:+ dq +:+ "hook" +:+ dq
        +:+ ". The second part is the " +:+ dq +:+ "reveal" +:+ dq +:+ ".";
      "        3. Do NOT generate a quote similar to any in the " +:+ dq
        +:+ "PREVIOUSLY USED QUOTES" +:+ dq +:+ " list.";
      "        4. Your ENTIRE response MUST be in the format below, with nothing else.";
      "";
      "        **GOOD EXAMPLES:**";
      "        * EXAMPLE 1: `PART_1: The most uncomfortable feeling…";
      "PART_2: …is holding two contradictory beliefs at the same time.";
      "TITLE: The Battle In Your Mind`";
      "        * EXAMPLE 2: `PART_1: We don't see the world as it is…";
      "PART_2: …we see it as we already believe it to be.";
      "TITLE: Your Personal Echo Chamber`";
      "";
      "        **PREVIOUSLY USED QUOTES:**";
      "        " +:+ history_list;
      "";
      "        **YOUR REQUIRED OUTPUT FORMAT:**";
      "        PART_1: [The first part of the quote]";
      "        PART_2: [The second part of the quote]";
      "        TITLE: [The video title]";
      "        " ].

Definition tags_prompt (title quote_parts : string) : string :=
  String.concat nl
    [ "";
      "    Based on the following video title and content about psychology, generate a list of 10-15 relevant, popular, and SEO-friendly YouTube tags.";
      "    TITLE: " +:+ title;
      "    CONTENT: " +:+ quote_parts;
      "    RULES: Return ONLY a comma-separated list of tags. Do not use hashtags (#). Include a mix of broad and specific tags (e.g., psychology facts, human behavior, cognitive bias, life hacks, shorts).";
      "    Your comma-separated list of tags:";
      "    " ].

(** Lines 127-129: the three components cut out of the reply. *)
Definition parse_response (r : response) : result (string * string * string) :=
  t ← text r;
  p ← getitem (split "PART_2:" t) 0;
  let part1 := strip (replace "PART_1:" "" p) in
  t ← text r;
  a ← getitem (split "TITLE:" t) 0;
  b ← getitem (split "PART_2:" a) 1;
  let part2 := strip b in
  t ← text r;
  c ← getitem (split "TITLE:" t) 1;
  let title := strip c in
  Ok (part1, part2, title).

Definition sentinel : string * string * string :=
  ("Error", "Could not generate unique quote.", "Error").

Section Calls.
Context (E : env).

Definition col_values (col : nat) : M (list string) :=
  fun log => (sheet_col_values E (reads log) col, log ++ [SheetRead col]).

Definition random_choice {A} (l : list A) : M A :=
  fun log => (choice (random_draw E (draws log)) l, log ++ [RandomChoice]).

Definition generate_content (prompt : string) (config : GenerationConfig) : M response :=
  fun log =>
    (gemini_generate_content E (generations log) prompt config,
     log ++ [GenerateContent prompt config]).

(** Lines 81-86. *)
Definition read_history : M string :=
  try_except
    (column ← col_values 1;
     let used_quotes := drop 1 column in
     mret (join nl (map (fun quote => "- " +:+ quote) used_quotes)))
    (fun _ => mret "None.").

(** Lines 89-136: [n] is the number of attempts still allowed; the sentinel
    is what the function returns once the loop has run out. *)
Fixpoint attempts (n : nat) (history_list : string) : M (string * string * string) :=
  match n with
  | O => mret sentinel
  | S n' =>
      chosen_theme ← random_choice themes;
      response ← generate_content (master_prompt chosen_theme history_list)
                   {| temperature := 8 # 10 |};
      try_except (lift (parse_response response))
                 (fun _ => attempts n' history_list)
  end.

Definition create_quote_content : M (string * string * string) :=
  history_list ← read_history;
  attempts MAX_ATTEMPTS history_list.

Definition generate_extra_tags (title quote_parts : string) : M (list string) :=
  response ← generate_content (tags_prompt title quote_parts)
               {| temperature := 7 # 10 |};
  t ← lift (text response);
  mret (map strip (split "," t)).

End Calls.

(** ** The course of a call

    Vocabulary for statements about a run of the retry loop that starts
    with the log [log] and the history text [history_list]: what the
    [k]-th attempt (counted from 0) sends, what it is answered and what it
    adds to the log, provided that the attempts before it did not return. *)

Definition theme_of (r : nat) : string := nth (r mod length themes) themes "".

Section Course.
Context (E : env) (history_list : string) (log : list event).

Definition attempt_prompt (k : nat) : string :=
  master_prompt (theme_of (random_draw E (draws log + k))) history_list.

Definition attempt_reply (k : nat) : result response :=
  gemini_generate_content E (generations log + k) (attempt_prompt k)
    {| temperature := 8 # 10 |}.

Definition attempt_events (k : nat) : list event :=
  [RandomChoice; GenerateContent (attempt_prompt k) {| temperature := 8 # 10 |}].

Definition events_upto (k : nat) : list event :=
  concat (map attempt_events (seq 0 k)).

Definition attempt_fails (k : nat) : Prop :=
  ∃ r e, attempt_reply k = Ok r ∧ parse_response r = Raise e.

End Course.

(** The history text a call that starts with the log [log] works with. *)
Definition history_after (E : env) (log : list event) : string :=
  match sheet_col_values E (reads log) 1 with
  | Ok column => join nl (map (fun quote => "- " +:+ quote) (drop 1 column))
  | Raise _ => "None."
  end.

End Generator.

(** ** Sample inputs *)

Module Samples.
Import Py Selector Generator.

(** Three videos and a text file, no state file yet. *)
Definition fresh_folder : gmap string string :=
  list_to_map [("b.mp4", "B"); ("a.mp4", "A"); ("notes.txt", "n"); ("c.mp4", "C")].

(** The same folder with a state file left by a run over more videos. *)
Definition stale_folder : gmap string string := <[state_file := "7"]> fresh_folder.


(** Replies of the model. *)
Definition reply (t : string) : result response := Ok {| text := Ok t |}.

Definition well_formed : string :=
  "PART_1: A" +:+ nl +:+ "PART_2: B" +:+ nl +:+ "TITLE: C".

Definition sheet_ok : nat → nat → result (list string) :=
  fun _ _ => Ok ["Hook"; "The mind fills the gaps"; "We trust what we repeat"].

(** A model whose replies never have the markers. *)
Definition never_parses : env :=
  {| sheet_col_values := sheet_ok;
     random_draw := fun k => 5 * k + 3;
     gemini_generate_content := fun _ _ _ => reply "I cannot help with that." |}.

(** Two replies without [TITLE:], then a well-formed one. *)
Definition third_time : env :=
  {| sheet_col_values := sheet_ok;
     random_draw := fun k => 5 * k + 3;
     gemini_generate_content :=
       fun k _ _ => if k <? 2 then reply "PART_1: a PART_2: b" else reply well_formed |}.

(** The sheet cannot be read; the model answers as in [third_time]. *)
Definition sheet_down : env :=
  {| sheet_col_values := fun _ _ => Raise (OtherError "APIError");
     random_draw := random_draw third_time;
     gemini_generate_content := gemini_generate_content third_time |}.

(** One reply without markers, then the service refuses the call. *)
Definition model_down : env :=
  {| sheet_col_values := sheet_ok;
     random_draw := fun k => k;
     gemini_generate_content :=
       fun k _ _ => if k <? 1 then reply "busy" else Raise (OtherError "ResourceExhausted") |}.

(** A model that answers the tag request. *)
Definition tagger : env :=
  {| sheet_col_values := sheet_ok;
     random_draw := fun k => k;
     gemini_generate_content := fun _ _ _ => reply "a, b ,c" |}.

End Samples.

(** ** The rest of the script: media check, video stage, upload stage,
       logging and the main block *)

Module Driver.
Import Py Selector Generator.

(** Truth value of [os.getenv(name)]: set and not empty. *)
Definition truthy (v : option string) : bool :=
  match v with
  | Some s => negb (String.eqb s EmptyString)
  | None => false
  end.

(** Lines 63-73: a folder that does not exist counts as empty. *)
Definition verify_media_files (fs : files) : bool :=
  let music_files :=
    match psych_music fs with
    | Some dir => filter (fun f => endswith f ".mp3" = true) (map_to_list dir).*1
    | None => []
    end in
  let video_files :=
    match psych_temp fs with
    | Some dir => filter (fun f => endswith f ".mp4" = true) (map_to_list dir).*1
    | None => []
    end in
  if (length music_files =? 0) || (length video_files =? 0) then false else true.

(** What the script does not decide: the environment variable, the line
    typed at the prompt, the clock, the two logins made when the module is
    loaded, the composition toolkit (lines 192-231, one call here), the sheet,
    and the text [str(e)] of an exception.  [get_authenticated_service] and
    [upload_video] are imported from the module [upload_video], which is not
    among the sources: they are parameters that may return or raise. *)
Record outside : Type := {
  services : env;
  GITHUB_ACTIONS : option string;
  input : result string;
  unix_time : Z;
  configure_gemini : result unit;
  open_sheet : result unit;
  write_videofile : string → string → string → string → string → result unit;
  get_authenticated_service : result unit;
  upload_video : string → string → string → list string → string → result unit;
  append_row : list string → result unit;
  exn_str : exn → string
}.

(** Calls that act on the world outside the two folders, in the order made. *)
Inductive action : Type :=
  | Render (part1 part2 music video output : string)
  | Authenticate
  | Upload (file_path title description : string) (tags : list string)
           (privacy_status : string)
  | AppendRow (row : list string).

Definition is_upload (a : action) : bool :=
  match a with Upload _ _ _ _ _ => true | _ => false end.
Definition is_append (a : action) : bool :=
  match a with AppendRow _ => true | _ => false end.

Record world : Type := {
  disk : files;
  calls : list event;
  actions : list action
}.

Inductive exit_reason : Type :=
  | GeminiAuthFailed (e : exn)
  | SheetsAuthFailed (e : exn)
  | MissingMedia
  | GenerationFailed
  | Halted (h : halt).

(** How a piece of the script ends: with a value, with an exception, or
    with [exit], which no [except Exception] catches. *)
Inductive ending (A : Type) : Type :=
  | Value (a : A)
  | Raised (e : exn)
  | Exited (why : exit_reason).
Arguments Value {A} a.
Arguments Raised {A} e.
Arguments Exited {A} why.

Definition Prog (A : Type) : Type := world → ending A * world.

#[global] Instance Prog_ret : MRet Prog := fun _ a w => (Value a, w).

#[global] Instance Prog_bind : MBind Prog :=
  fun _ _ f m w =>
    match m w with
    | (Value a, w') => f a w'
    | (Raised e, w') => (Raised e, w')
    | (Exited why, w') => (Exited why, w')
    end.

Definition of_result {A} (r : result A) : ending A :=
  match r with Ok a => Value a | Raise e => Raised e end.

Definition set_calls (log : list event) (w : world) : world :=
  {| disk := disk w; calls := log; actions := actions w |}.

Definition add_action (a : action) (w : world) : world :=
  {| disk := disk w; calls := calls w; actions := actions w ++ [a] |}.

(** A call of the generator code, on the log of the world. *)
Definition call {A} (m : M A) : Prog A :=
  fun w => let (r, log) := m (calls w) in (of_result r, set_calls log w).

(** A call that acts outside, recorded whether or not it raises. *)
Definition act {A} (a : action) (r : result A) : Prog A :=
  fun w => (of_result r, add_action a w).

Definition exit {A} (why : exit_reason) : Prog A := fun w => (Exited why, w).

(** [try: body  except Exception as e: handler] *)
Definition prog_try {A} (body : Prog A) (handler : exn → Prog A) : Prog A :=
  fun w =>
    match body w with
    | (Raised e, w') => handler e w'
    | other => other
    end.

(** The status text after a failed upload stage: [f"YouTube Upload Failed: {e}"]. *)
Definition failed (O : outside) (e : exn) : string :=
  "YouTube Upload Failed: " +:+ exn_str O e.

Definition base_tags : list string :=
  ["psychology"; "facts"; "shorts"; "human behavior"; "mindset"; "life lessons"].

Definition hashtags : string :=
  "#shorts #ytshorts #psychology #psychologyfacts #humanbehavior #mindset".

Section Script.
Context (O : outside).

(** Lines 15-28, run when the module is loaded. *)
Definition startup : Prog unit :=
  fun w =>
    match configure_gemini O with
    | Raise e => (Exited (GeminiAuthFailed e), w)
    | Ok _ =>
        match open_sheet O with
        | Raise e => (Exited (SheetsAuthFailed e), w)
        | Ok _ => (Value tt, w)
        end
    end.

(** Lines 33-50: the exceptions of the toolkit's configuration are caught. *)
Definition setup_environment : bool := truthy (GITHUB_ACTIONS O).

(** Lines 52-61. *)
Definition get_user_choice : Prog string :=
  fun w =>
    if truthy (GITHUB_ACTIONS O) then (Value "2", w)
    else (of_result (input O), w).

(** Lines 157-231: the [try] block, then the composition. *)
Definition generate_video_with_music (part1 part2 output_filename : string) : Prog unit :=
  fun w =>
    let drawn :=
      match listdir (psych_music (disk w)) with
      | Ok _ => [RandomChoice]
      | Raise _ => []
      end in
    match choose_media (random_draw (services O) (draws (calls w))) (disk w) with
    | Exit h =>
        (Exited (Halted h),
         {| disk := disk w; calls := calls w ++ drawn; actions := actions w |})
    | Return (chosen_music_path, s) =>
        (of_result (write_videofile O part1 part2 chosen_music_path
                      (chosen_video_path s) output_filename),
         {| disk := {| psych_music := psych_music (disk w);
                       psych_temp := Some (folder_after s) |};
            calls := calls w ++ drawn;
            actions := actions w ++ [Render part1 part2 chosen_music_path
                                       (chosen_video_path s) output_filename] |})
    end.

(** Lines 233-241. *)
Definition log_to_sheet (part1 part2 title filename status : string) : Prog unit :=
  prog_try
    (let new_row := [part1; part2; title; filename; status] in
     act (AppendRow new_row) (append_row O new_row))
    (fun _ => mret tt).

(** Lines 263-289: the value of [upload_status] for choice 2.  [list(set(l))]
    gives the elements in an order the caller cannot rely on. *)
Definition upload_stage (part1 part2 title output_filename : string) : Prog string :=
  prog_try
    (_ ← act Authenticate (get_authenticated_service O);
     let description := part1 +:+ " " +:+ part2 +:+ nl +:+ nl +:+ hashtags in
     ai_tags ← call (generate_extra_tags (services O) title (part1 +:+ " " +:+ part2));
     let final_tags := elements (list_to_set (base_tags ++ ai_tags) : gset string) in
     _ ← act (Upload output_filename title description final_tags "public")
             (upload_video O output_filename title description final_tags "public");
     mret "Uploaded to YouTube")
    (fun e => mret (failed O e)).

(** Lines 244-295, after the module has been loaded. *)
Definition main : Prog unit :=
  _ ← startup;
  let is_automated := setup_environment in
  media ← (fun w => (Value (verify_media_files (disk w)), w));
  if negb media then exit MissingMedia
  else
    choice ← get_user_choice;
    if String.eqb choice "1" || String.eqb choice "2" then
      quote ← call (create_quote_content (services O));
      let '(part1, part2, title) := quote in
      if String.eqb part1 "Error" then exit GenerationFailed
      else
        let output_filename := "quote_" +:+ str (unix_time O) +:+ ".mp4" in
        _ ← generate_video_with_music part1 part2 output_filename;
        upload_status ←
          (if String.eqb choice "2"
           then upload_stage part1 part2 title output_filename
           else mret "Generated Locally");
        log_to_sheet part1 part2 title output_filename upload_status
    else mret tt.

(** The main block reaches the generator: both logins succeed, the media
    check passes and the choice is 1 or 2. *)
Definition ready (w : world) (choice : string) : Prop :=
  configure_gemini O = Ok tt
  ∧ open_sheet O = Ok tt
  ∧ verify_media_files (disk w) = true
  ∧ get_user_choice w = (Value choice, w)
  ∧ (choice = "1" ∨ choice = "2").

Definition output_filename : string := "quote_" +:+ str (unix_time O) +:+ ".mp4".

End Script.

(** The backgrounds chosen by [k] runs one after the other. *)
Fixpoint successive_videos (k : nat) (dir : gmap string string) : list string :=
  match k with
  | O => []
  | S k' =>
      match sequential_selector dir with
      | Return s => chosen_video_path s :: successive_videos k' (folder_after s)
      | Exit _ => []
      end
  end.

End Driver.

Module DriverSamples.
Import Py Selector Generator Samples Driver.

Definition music : gmap string string :=
  list_to_map [("calm.mp3", "m1"); ("cover.jpg", "j"); ("deep.mp3", "m2")].

Definition stocked : files :=
  {| psych_music := Some music; psych_temp := Some fresh_folder |}.

Definition begin (fs : files) : world := {| disk := fs; calls := []; actions := [] |}.

(** A model whose first reply is well formed but has the hook "Error". *)
Definition error_hook : env :=
  {| sheet_col_values := sheet_ok;
     random_draw := fun k => k;
     gemini_generate_content :=
       fun _ _ _ => reply "PART_1: Error PART_2: is human TITLE: To Err" |}.

(** A model that answers the quote request, then the tag request. *)
Definition obliging : env :=
  {| sheet_col_values := sheet_ok;
     random_draw := fun k => k;
     gemini_generate_content :=
       fun k _ _ => if k <? 1 then reply well_formed else reply "mind, facts ,mind" |}.

(** An automated run in which everything outside answers. *)
Definition smooth : outside :=
  {| services := obliging;
     GITHUB_ACTIONS := Some "true";
     input := Raise (OtherError "EOFError");
     unix_time := 1700000000;
     configure_gemini := Ok tt;
     open_sheet := Ok tt;
     write_videofile := fun _ _ _ _ _ => Ok tt;
     get_authenticated_service := Ok tt;
     upload_video := fun _ _ _ _ _ => Ok tt;
     append_row := fun _ => Ok tt;
     exn_str := fun e => match e with OtherError m => m | _ => "error" end |}.

Definition with_services (E : env) (O : outside) : outside :=
  {| services := E;
     GITHUB_ACTIONS := GITHUB_ACTIONS O;
     input := input O;
     unix_time := unix_time O;
     configure_gemini := configure_gemini O;
     open_sheet := open_sheet O;
     write_videofile := write_videofile O;
     get_authenticated_service := get_authenticated_service O;
     upload_video := upload_video O;
     append_row := append_row O;
     exn_str := exn_str O |}.

(** The same run at a terminal, the user typing [typed]. *)
Definition at_terminal (typed : string) (O : outside) : outside :=
  {| services := services O;
     GITHUB_ACTIONS := None;
     input := Ok typed;
     unix_time := unix_time O;
     configure_gemini := configure_gemini O;
     open_sheet := open_sheet O;
     write_videofile := write_videofile O;
     get_authenticated_service := get_authenticated_service O;
     upload_video := upload_video O;
     append_row := append_row O;
     exn_str := exn_str O |}.

(** The same run with an upload module that refuses the login. *)
Definition login_refused (O : outside) : outside :=
  {| services := services O;
     GITHUB_ACTIONS := GITHUB_ACTIONS O;
     input := input O;
     unix_time := unix_time O;
     configure_gemini := configure_gemini O;
     open_sheet := open_sheet O;
     write_videofile := write_videofile O;
     get_authenticated_service := Raise (OtherError "invalid_grant");
     upload_video := upload_video O;
     append_row := append_row O;
     exn_str := exn_str O |}.

(** The same run with a toolkit that fails to encode. *)
Definition encoder_broken (O : outside) : outside :=
  {| services := services O;
     GITHUB_ACTIONS := GITHUB_ACTIONS O;
     input := input O;
     unix_time := unix_time O;
     configure_gemini := configure_gemini O;
     open_sheet := open_sheet O;
     write_videofile := fun _ _ _ _ _ => Raise (OtherError "OSError");
     get_authenticated_service := get_authenticated_service O;
     upload_video := upload_video O;
     append_row := append_row O;
     exn_str := exn_str O |}.

End DriverSamples.

(** * Facts about the builtins *)

Section StringFacts.
Import Py.

Lemma append_cons a (x y : string) : String a x +:+ y = String a (x +:+ y).
Proof. reflexivity. Qed.

Lemma append_empty_l (y : string) : EmptyString +:+ y = y.
Proof. reflexivity. Qed.

Lemma append_empty_r (x : string) : x +:+ EmptyString = x.
Proof. induction x as [|a x IH]; [reflexivity|]. now rewrite append_cons, IH. Qed.

Lemma append_assoc (x y z : string) : (x +:+ y) +:+ z = x +:+ (y +:+ z).
Proof. induction x as [|a x IH]; [reflexivity|]. now rewrite !append_cons, IH. Qed.

Lemma length_append (x y : string) :
  String.length (x +:+ y) = String.length x + String.length y.
Proof. induction x as [|a x IH]; [reflexivity|]. rewrite append_cons. simpl. now rewrite IH. Qed.

Lemma prefix_cons a b (p s : string) :
  String.prefix (String a p) (String b s) = bool_decide (a = b) && String.prefix p s.
Proof. simpl. destruct (ascii_dec a b); case_bool_decide; done. Qed.

Lemma prefix_app_same (p y : string) : String.prefix p (p +:+ y) = true.
Proof.
  induction p as [|a p IH]; [by destruct y|].
  rewrite append_cons, prefix_cons, IH. by rewrite bool_decide_eq_true_2.
Qed.

Lemma prefix_app_mono (p x y : string) :
  String.prefix p x = true → String.prefix p (x +:+ y) = true.
Proof.
  revert x. induction p as [|a p IH]; intros x H.
  - by destruct (x +:+ y).
  - destruct x as [|b x]; [done|].
    rewrite append_cons, prefix_cons in *.
    apply andb_true_iff in H as [-> H]. by rewrite (IH _ H).
Qed.

Lemma prefix_empty_r (p : string) : p ≠ EmptyString → String.prefix p EmptyString = false.
Proof. by destruct p. Qed.

Lemma occurrences_empty (sep : string) :
  sep ≠ EmptyString → occurrences sep EmptyString = 0.
Proof. by destruct sep. Qed.

Lemma occurrences_cons (sep : string) a (s : string) :
  occurrences sep (String a s)
  = (if String.prefix sep (String a s) then 1 else 0) + occurrences sep s.
Proof. reflexivity. Qed.

(** Occurrences of a separator in the parts of a text are occurrences in the
    text. *)
Lemma occurrences_app (sep x y : string) :
  sep ≠ EmptyString →
  occurrences sep x + occurrences sep y ≤ occurrences sep (x +:+ y).
Proof.
  intros Hsep. induction x as [|a x IH].
  - rewrite occurrences_empty, append_empty_l by done. lia.
  - rewrite append_cons, !occurrences_cons.
    destruct (String.prefix sep (String a x)) eqn:Hp.
    + rewrite <- append_cons, (prefix_app_mono _ _ y Hp). lia.
    + destruct (String.prefix sep (String a (x +:+ y))); lia.
Qed.

Lemma occurrences_self (sep y : string) : 1 ≤ occurrences sep (sep +:+ y).
Proof.
  destruct (sep +:+ y) as [|a t] eqn:Hs.
  - destruct sep; [simpl; lia | done].
  - rewrite occurrences_cons, <- Hs, prefix_app_same. lia.
Qed.

Lemma occurrences_middle (sep x y : string) :
  sep ≠ EmptyString →
  occurrences sep x + 1 + occurrences sep y ≤ occurrences sep (x +:+ sep +:+ y).
Proof.
  intros Hsep.
  pose proof (occurrences_app sep x (sep +:+ y) Hsep).
  pose proof (occurrences_app sep sep y Hsep).
  pose proof (occurrences_self sep EmptyString) as H1. rewrite append_empty_r in H1.
  lia.
Qed.

(** ** [split] *)

Lemma split_go_skip (sep u y : string) :
  split_go sep (String.length u) (u +:+ y) = split_go sep 0 y.
Proof. induction u as [|a u IH]; [reflexivity|]. by rewrite append_cons. Qed.

Lemma split_go_match (sep y : string) :
  sep ≠ EmptyString →
  split_go sep 0 (sep +:+ y)
  = (EmptyString, let (p, ps) := split_go sep 0 y in p :: ps).
Proof.
  intros Hsep. destruct sep as [|a sep]; [done|].
  rewrite append_cons. cbn [split_go]. rewrite <- append_cons, prefix_app_same.
  cbn [String.length]. rewrite Nat.sub_1_r. cbn [Nat.pred].
  by rewrite split_go_skip.
Qed.

Lemma split_go_absent (sep s : string) :
  occurrences sep s = 0 → split_go sep 0 s = (s, []).
Proof.
  induction s as [|a s IH]; [reflexivity|].
  rewrite occurrences_cons. intros H. cbn [split_go].
  destruct (String.prefix sep (String a s)); [lia|].
  rewrite IH by lia. reflexivity.
Qed.

Lemma split_absent (sep s : string) :
  occurrences sep s = 0 → split sep s = [s].
Proof. intros H. unfold split. by rewrite split_go_absent. Qed.

(** The text up to the first occurrence is the first piece. *)
Lemma split_go_first (sep x y : string) :
  sep ≠ EmptyString →
  occurrences sep (x +:+ sep +:+ y) = S (occurrences sep y) →
  split_go sep 0 (x +:+ sep +:+ y) = (x, let (p, ps) := split_go sep 0 y in p :: ps).
Proof.
  intros Hsep. induction x as [|a x IH]; intros H.
  - rewrite append_empty_l. by apply split_go_match.
  - rewrite append_cons in *. rewrite occurrences_cons in H.
    pose proof (occurrences_middle sep x y Hsep) as Hm.
    cbn [split_go].
    destruct (String.prefix sep (String a (x +:+ sep +:+ y))); [lia|].
    rewrite IH by lia. reflexivity.
Qed.

Lemma split_once (sep x y : string) :
  sep ≠ EmptyString →
  occurrences sep (x +:+ sep +:+ y) = 1 →
  split sep (x +:+ sep +:+ y) = [x; y].
Proof.
  intros Hsep H.
  pose proof (occurrences_middle sep x y Hsep) as Hm.
  unfold split. rewrite split_go_first by (done || lia).
  rewrite split_go_absent by lia. reflexivity.
Qed.

Lemma prefix_decompose (p s : string) :
  String.prefix p s = true → ∃ y, s = p +:+ y.
Proof.
  revert s. induction p as [|a p IH]; intros s H; [by exists s|].
  destruct s as [|b s]; [done|].
  rewrite prefix_cons in H. apply andb_true_iff in H as [Hab H].
  apply bool_decide_eq_true in Hab as ->.
  destruct (IH _ H) as [y ->]. by exists y.
Qed.

Lemma join_cons2 (sep x y : string) (l : list string) :
  join sep (x :: y :: l) = x +:+ sep +:+ join sep (y :: l).
Proof. reflexivity. Qed.

Lemma join_cons_char (sep : string) a (p : string) (ps : list string) :
  join sep (String a p :: ps) = String a (join sep (p :: ps)).
Proof. by destruct ps. Qed.

(** Joining the pieces with the separator gives the text back. *)
Lemma join_split_go (sep s : string) :
  sep ≠ EmptyString →
  join sep (let (p, ps) := split_go sep 0 s in p :: ps) = s.
Proof.
  intros Hsep. remember (String.length s) as n eqn:Hn. revert s Hn.
  induction n as [n IH] using lt_wf_ind. intros s Hn.
  destruct s as [|a s]; [reflexivity|].
  destruct (String.prefix sep (String a s)) eqn:Hp.
  - destruct (prefix_decompose _ _ Hp) as [y Hy]. rewrite Hy.
    rewrite split_go_match by done.
    assert (String.length y < n) as Hlt.
    { rewrite Hn, Hy, length_append. destruct sep; [done|simpl; lia]. }
    specialize (IH _ Hlt y eq_refl).
    destruct (split_go sep 0 y) as [p ps]. by rewrite join_cons2, IH.
  - cbn [split_go]. rewrite Hp.
    assert (String.length s < n) as Hlt by (rewrite Hn; simpl; lia).
    specialize (IH _ Hlt s eq_refl).
    destruct (split_go sep 0 s) as [p ps]. by rewrite join_cons_char, IH.
Qed.

Lemma join_split (sep s : string) :
  sep ≠ EmptyString → join sep (split sep s) = s.
Proof. intros Hsep. unfold split. apply (join_split_go sep s Hsep). Qed.

Lemma split_nonempty (sep s : string) : split sep s ≠ [].
Proof. unfold split. by destruct (split_go sep 0 s). Qed.

Lemma join_head (sep p : string) (ps : list string) :
  ∃ rest, join sep (p :: ps) = p +:+ rest.
Proof.
  destruct ps as [|q ps].
  - exists EmptyString. by rewrite append_empty_r.
  - rewrite join_cons2. eauto.
Qed.

(** The first piece is the beginning of the text. *)
Lemma split_head (sep s : string) :
  sep ≠ EmptyString →
  ∃ p ps rest, split sep s = p :: ps ∧ s = p +:+ rest.
Proof.
  intros Hsep. pose proof (join_split sep s Hsep) as Hj.
  destruct (split sep s) as [|p ps] eqn:Hs; [by apply split_nonempty in Hs|].
  destruct (join_head sep p ps) as [rest Hr].
  exists p, ps, rest. split; [done|]. by rewrite <- Hj, Hr.
Qed.

(** No piece contains the separator. *)
Lemma split_go_pieces (sep s : string) :
  sep ≠ EmptyString →
  Forall (fun p => occurrences sep p = 0)
         (let (p, ps) := split_go sep 0 s in p :: ps).
Proof.
  intros Hsep. remember (String.length s) as n eqn:Hn. revert s Hn.
  induction n as [n IH] using lt_wf_ind. intros s Hn.
  destruct s as [|a s].
  { cbn [split_go]. constructor; [by apply occurrences_empty|constructor]. }
  destruct (String.prefix sep (String a s)) eqn:Hp.
  - destruct (prefix_decompose _ _ Hp) as [y Hy]. rewrite Hy.
    rewrite split_go_match by done.
    assert (String.length y < n) as Hlt.
    { rewrite Hn, Hy, length_append. destruct sep; [done|simpl; lia]. }
    specialize (IH _ Hlt y eq_refl).
    destruct (split_go sep 0 y) as [p ps].
    constructor; [by apply occurrences_empty|done].
  - cbn [split_go]. rewrite Hp.
    assert (String.length s < n) as Hlt by (rewrite Hn; simpl; lia).
    specialize (IH _ Hlt s eq_refl).
    pose proof (join_split_go sep s Hsep) as Hj.
    destruct (split_go sep 0 s) as [p ps].
    apply Forall_cons in IH as [Hp0 Hps].
    constructor; [|done].
    rewrite occurrences_cons, Hp0.
    destruct (String.prefix sep (String a p)) eqn:Hq; [|done].
    destruct (join_head sep p ps) as [rest Hr].
    rewrite <- Hj, Hr, <- append_cons, (prefix_app_mono _ _ rest Hq) in Hp. done.
Qed.

Lemma split_pieces (sep s : string) :
  sep ≠ EmptyString → Forall (fun p => occurrences sep p = 0) (split sep s).
Proof. intros Hsep. unfold split. apply (split_go_pieces sep s Hsep). Qed.

(** ** [replace] *)

Lemma replace_go_skip (old new u y : string) :
  replace_go old new (String.length u) (u +:+ y) = replace_go old new 0 y.
Proof. induction u as [|a u IH]; [reflexivity|]. by rewrite append_cons. Qed.

Lemma replace_head (old new y : string) :
  old ≠ EmptyString →
  replace old new (old +:+ y) = new +:+ replace old new y.
Proof.
  intros Hold. unfold replace. destruct old as [|a old]; [done|].
  rewrite append_cons. cbn [replace_go]. rewrite <- append_cons, prefix_app_same.
  cbn [String.length]. rewrite Nat.sub_1_r. cbn [Nat.pred].
  by rewrite replace_go_skip.
Qed.

Lemma replace_absent (old new s : string) :
  occurrences old s = 0 → replace old new s = s.
Proof.
  unfold replace. induction s as [|a s IH]; [reflexivity|].
  rewrite occurrences_cons. intros H. cbn [replace_go].
  destruct (String.prefix old (String a s)); [lia|].
  by rewrite IH by lia.
Qed.

End StringFacts.

(** * Facts about the response parser *)

Section ParserFacts.
Import Py Generator.

Lemma bind_Ok {A B} (a : A) (k : A → result B) : (Ok a ≫= k) = k a.
Proof. reflexivity. Qed.

Lemma bind_Raise {A B} (e : exn) (k : A → result B) : (Raise e ≫= k) = Raise e.
Proof. reflexivity. Qed.

Lemma getitem_first {A} (x : A) (l : list A) : getitem (x :: l) 0 = Ok x.
Proof.
  unfold getitem. cbn [Z.ltb Z.compare length].
  destruct (_ && _)%bool eqn:Hb; [reflexivity|].
  apply andb_false_iff in Hb as [Hb|Hb]; [done|].
  apply Z.ltb_ge in Hb. lia.
Qed.

Lemma getitem_second {A} (x y : A) (l : list A) : getitem (x :: y :: l) 1 = Ok y.
Proof.
  unfold getitem. cbn [Z.ltb Z.compare length].
  destruct (_ && _)%bool eqn:Hb; [reflexivity|].
  apply andb_false_iff in Hb as [Hb|Hb]; [done|].
  apply Z.ltb_ge in Hb. lia.
Qed.

Lemma getitem_single_second {A} (x : A) : getitem [x] 1 = Raise IndexError.
Proof. reflexivity. Qed.

Ltac run_result :=
  cbv zeta;
  repeat (rewrite bind_Ok || rewrite bind_Raise || rewrite getitem_first
          || rewrite getitem_second || rewrite getitem_single_second).

Lemma getitem_raises {A} (l : list A) i e : getitem l i = Raise e → e = IndexError.
Proof.
  unfold getitem. destruct (_ && _)%bool; [|congruence].
  destruct (l !! _); congruence.
Qed.

(** A reply of the shape [p PART_2: b TITLE: c] in which each of the two
    markers occurs once. *)
Lemma parse_response_shape (p b c : string) :
  let t := p +:+ "PART_2:" +:+ b +:+ "TITLE:" +:+ c in
  occurrences "PART_2:" t = 1 →
  occurrences "TITLE:" t = 1 →
  parse_response {| text := Ok t |}
  = Ok (strip (replace "PART_1:" "" p), strip b, strip c).
Proof.
  intros t H2 Ht.
  assert (split "PART_2:" t = [p; b +:+ "TITLE:" +:+ c]) as S1
    by (by apply split_once).
  assert (t = (p +:+ "PART_2:" +:+ b) +:+ "TITLE:" +:+ c) as Et
    by (unfold t; by rewrite !append_assoc).
  assert (split "TITLE:" t = [p +:+ "PART_2:" +:+ b; c]) as S2.
  { rewrite Et. apply split_once; [done|]. by rewrite <- Et. }
  assert (split "PART_2:" (p +:+ "PART_2:" +:+ b) = [p; b]) as S3.
  { apply split_once; [done|].
    pose proof (occurrences_middle "PART_2:" p b ltac:(done)).
    pose proof (occurrences_app "PART_2:" (p +:+ "PART_2:" +:+ b)
                  ("TITLE:" +:+ c) ltac:(done)) as Ha.
    rewrite <- Et in Ha. lia. }
  unfold parse_response. cbn [text]. run_result.
  rewrite S1. run_result. rewrite S2. run_result. rewrite S3. run_result.
  rewrite S2. by run_result.
Qed.

Lemma parse_response_no_text (e : exn) :
  parse_response {| text := Raise e |} = Raise e.
Proof. reflexivity. Qed.

Lemma parse_response_no_part2 (t : string) :
  occurrences "PART_2:" t = 0 →
  parse_response {| text := Ok t |} = Raise IndexError.
Proof.
  intros H. unfold parse_response. cbn [text]. run_result.
  rewrite (split_absent _ _ H). run_result.
  destruct (split_head "TITLE:" t ltac:(done)) as (a & ps & rest & -> & Ea).
  run_result.
  assert (occurrences "PART_2:" a = 0) as Ha.
  { pose proof (occurrences_app "PART_2:" a rest ltac:(done)) as Hle.
    rewrite <- Ea in Hle. lia. }
  rewrite (split_absent _ _ Ha). by run_result.
Qed.

Lemma parse_response_no_title (t : string) :
  occurrences "TITLE:" t = 0 →
  parse_response {| text := Ok t |} = Raise IndexError.
Proof.
  intros H. unfold parse_response. cbn [text]. run_result.
  destruct (split "PART_2:" t) as [|p ps] eqn:Hs; [by apply split_nonempty in Hs|].
  run_result. rewrite (split_absent _ _ H). run_result.
  rewrite Hs.
  destruct (getitem (p :: ps) 1) as [b|e] eqn:Hb; run_result.
  - rewrite (split_absent _ _ H). by run_result.
  - by rewrite (getitem_raises _ _ _ Hb).
Qed.

End ParserFacts.

(** * Facts about the retry loop *)

Section LoopFacts.
Import Py Generator.
Context (E : env).

Lemma getitem_nat {A} (l : list A) (i : nat) (d : A) :
  i < length l → getitem l (Z.of_nat i) = Ok (nth i l d).
Proof.
  intros Hi. unfold getitem.
  destruct (Z.ltb_spec (Z.of_nat i) 0) as [?|_]; [lia|].
  destruct (Z.leb_spec 0 (Z.of_nat i)) as [_|?]; [|lia].
  destruct (Z.ltb_spec (Z.of_nat i) (Z.of_nat (length l))) as [_|?]; [|lia].
  cbn [andb]. rewrite Nat2Z.id, (nth_lookup l i d).
  destruct (lookup_lt_is_Some_2 l i Hi) as [x ->]. reflexivity.
Qed.

Lemma choice_themes (r : nat) : choice r themes = Ok (theme_of r).
Proof.
  unfold choice, theme_of.
  change (getitem themes (Z.of_nat (r mod length themes))
          = Ok (nth (r mod length themes) themes "")).
  apply getitem_nat. apply Nat.mod_upper_bound. done.
Qed.

Lemma reads_app l1 l2 : reads (l1 ++ l2) = reads l1 + reads l2.
Proof. unfold reads. by rewrite List.filter_app, length_app. Qed.

Lemma draws_app l1 l2 : draws (l1 ++ l2) = draws l1 + draws l2.
Proof. unfold draws. by rewrite List.filter_app, length_app. Qed.

Lemma generations_app l1 l2 : generations (l1 ++ l2) = generations l1 + generations l2.
Proof. unfold generations. by rewrite List.filter_app, length_app. Qed.

Lemma prompts_app l1 l2 : prompts (l1 ++ l2) = prompts l1 ++ prompts l2.
Proof. unfold prompts. apply omap_app. Qed.

(** One turn of the loop. *)
Lemma attempts_S (n : nat) (h : string) (log : list event) :
  attempts E (S n) h log
  = match attempt_reply E h log 0 with
    | Raise e => (Raise e, log ++ attempt_events E h log 0)
    | Ok r =>
        match parse_response r with
        | Ok q => (Ok q, log ++ attempt_events E h log 0)
        | Raise _ => attempts E n h (log ++ attempt_events E h log 0)
        end
    end.
Proof.
  cbn [attempts]. unfold mbind, M_bind, random_choice, generate_content.
  rewrite choice_themes, generations_app.
  unfold attempt_reply, attempt_events, attempt_prompt.
  change (generations [RandomChoice]) with 0. rewrite !Nat.add_0_r.
  rewrite <- app_assoc. cbn [app].
  destruct (gemini_generate_content E _ _ _) as [r|e]; [|reflexivity].
  unfold try_except, lift. by destruct (parse_response r).
Qed.

(** What an attempt sends and receives depends on the log only through the
    numbers of draws and of model calls made before. *)
Lemma attempt_prompt_counts h l1 k1 l2 k2 :
  draws l1 + k1 = draws l2 + k2 →
  attempt_prompt E h l1 k1 = attempt_prompt E h l2 k2.
Proof. unfold attempt_prompt. by intros ->. Qed.

Lemma attempt_reply_counts h l1 k1 l2 k2 :
  draws l1 + k1 = draws l2 + k2 →
  generations l1 + k1 = generations l2 + k2 →
  attempt_reply E h l1 k1 = attempt_reply E h l2 k2.
Proof.
  intros Hd Hg. unfold attempt_reply.
  by rewrite (attempt_prompt_counts h l1 k1 l2 k2 Hd), Hg.
Qed.

Lemma attempt_events_counts h l1 k1 l2 k2 :
  draws l1 + k1 = draws l2 + k2 →
  attempt_events E h l1 k1 = attempt_events E h l2 k2.
Proof.
  intros Hd. unfold attempt_events.
  by rewrite (attempt_prompt_counts h l1 k1 l2 k2 Hd).
Qed.

Lemma attempt_events_draws h log k : draws (attempt_events E h log k) = 1.
Proof. reflexivity. Qed.

Lemma attempt_events_generations h log k : generations (attempt_events E h log k) = 1.
Proof. reflexivity. Qed.

Lemma attempt_events_reads h log k : reads (attempt_events E h log k) = 0.
Proof. reflexivity. Qed.

Lemma events_upto_S h log k :
  events_upto E h log (S k) = events_upto E h log k ++ attempt_events E h log k.
Proof.
  unfold events_upto. rewrite seq_S, map_app, concat_app. cbn [map concat Nat.add].
  by rewrite app_nil_r.
Qed.

Lemma events_upto_counts h log k :
  reads (events_upto E h log k) = 0
  ∧ draws (events_upto E h log k) = k
  ∧ generations (events_upto E h log k) = k.
Proof.
  induction k as [|k (Hr & Hd & Hg)]; [done|].
  rewrite events_upto_S, reads_app, draws_app, generations_app, Hr, Hd, Hg.
  rewrite attempt_events_draws, attempt_events_generations, attempt_events_reads.
  lia.
Qed.

Lemma events_upto_prompts h log k :
  prompts (events_upto E h log k) = map (attempt_prompt E h log) (seq 0 k).
Proof.
  induction k as [|k IH]; [done|].
  by rewrite events_upto_S, prompts_app, IH, seq_S, map_app.
Qed.

(** [k] attempts that fail to parse leave the loop with [k] attempts less
    and a log that has grown by their events. *)
Lemma attempts_skip (h : string) (log : list event) (k n : nat) :
  (∀ j, j < k → attempt_fails E h log j) →
  attempts E (k + n) h log = attempts E n h (log ++ events_upto E h log k).
Proof.
  revert n. induction k as [|k IH]; intros n Hf.
  - by rewrite app_nil_r.
  - rewrite events_upto_S, app_assoc.
    replace (S k + n) with (k + S n) by lia.
    rewrite IH by (intros j Hj; apply Hf; lia).
    destruct (events_upto_counts h log k) as (_ & Hd & Hg).
    assert (draws (log ++ events_upto E h log k) + 0 = draws log + k) as Hd'
      by (rewrite draws_app, Hd; lia).
    assert (generations (log ++ events_upto E h log k) + 0 = generations log + k) as Hg'
      by (rewrite generations_app, Hg; lia).
    rewrite attempts_S.
    rewrite (attempt_reply_counts h _ 0 log k Hd' Hg').
    rewrite (attempt_events_counts h _ 0 log k Hd').
    destruct (Hf k ltac:(lia)) as (r & e & -> & ->). reflexivity.
Qed.

Lemma attempts_exhausted (h : string) (log : list event) (n : nat) :
  (∀ j, j < n → attempt_fails E h log j) →
  attempts E n h log = (Ok sentinel, log ++ events_upto E h log n).
Proof.
  intros Hf. rewrite <- (Nat.add_0_r n) at 1. by rewrite attempts_skip.
Qed.

(** The attempt after [k] failed ones, when at least one is left. *)
Lemma attempts_at (h : string) (log : list event) (k n : nat) :
  k < n →
  (∀ j, j < k → attempt_fails E h log j) →
  attempts E n h log
  = match attempt_reply E h log k with
    | Raise e => (Raise e, log ++ events_upto E h log (S k))
    | Ok r =>
        match parse_response r with
        | Ok q => (Ok q, log ++ events_upto E h log (S k))
        | Raise _ => attempts E (n - S k) h (log ++ events_upto E h log (S k))
        end
    end.
Proof.
  intros Hk Hf.
  replace n with (k + S (n - S k)) at 1 by lia.
  rewrite attempts_skip by done.
  destruct (events_upto_counts h log k) as (_ & Hd & Hg).
  assert (draws (log ++ events_upto E h log k) + 0 = draws log + k) as Hd'
    by (rewrite draws_app, Hd; lia).
  assert (generations (log ++ events_upto E h log k) + 0 = generations log + k) as Hg'
    by (rewrite generations_app, Hg; lia).
  rewrite attempts_S.
  rewrite (attempt_reply_counts h _ 0 log k Hd' Hg').
  rewrite (attempt_events_counts h _ 0 log k Hd').
  by rewrite events_upto_S, app_assoc.
Qed.

(** The call as a whole: one read of the sheet, then the loop. *)
Lemma create_quote_content_unfold (log : list event) :
  create_quote_content E log
  = attempts E MAX_ATTEMPTS (history_after E log) (log ++ [SheetRead 1]).
Proof.
  unfold create_quote_content, read_history, history_after.
  unfold mbind at 1. unfold M_bind, try_except, col_values.
  unfold mbind, M_bind, mret, M_ret.
  by destruct (sheet_col_values E (reads log) 1).
Qed.

End LoopFacts.

(** * Facts about whole runs of the loop *)

Section RunFacts.
Import Py Generator.
Context (E : env).

Lemma events_upto_shift (h : string) (log : list event) (k : nat) :
  attempt_events E h log 0 ++ events_upto E h (log ++ attempt_events E h log 0) k
  = events_upto E h log (S k).
Proof.
  induction k as [|k IH]; [by rewrite events_upto_S, app_nil_r|].
  rewrite events_upto_S, app_assoc, IH, (events_upto_S E h log (S k)).
  f_equal. apply attempt_events_counts.
  rewrite draws_app, attempt_events_draws. lia.
Qed.

(** Whatever the outside world answers, the log grows by the events of at
    most [n] attempts. *)
Lemma attempts_log (n : nat) (h : string) (log : list event) :
  ∃ k, k ≤ n ∧ snd (attempts E n h log) = log ++ events_upto E h log k.
Proof.
  revert log. induction n as [|n IH]; intros log.
  - exists 0. split; [done|]. cbn. by rewrite app_nil_r.
  - rewrite attempts_S.
    assert (log ++ attempt_events E h log 0 = log ++ events_upto E h log 1) as E1
      by (by rewrite events_upto_S).
    destruct (attempt_reply E h log 0) as [r|e];
      [destruct (parse_response r) as [q|e]|];
      try (exists 1; split; [lia|exact E1]).
    destruct (IH (log ++ attempt_events E h log 0)) as (k & Hk & ->).
    exists (S k). split; [lia|].
    by rewrite <- app_assoc, events_upto_shift.
Qed.

(** An exception that leaves the loop was raised by the model. *)
Lemma attempts_raise_source (n : nat) (h : string) (log : list event) (e : exn) :
  fst (attempts E n h log) = Raise e →
  ∃ k prompt config, gemini_generate_content E k prompt config = Raise e.
Proof.
  revert log. induction n as [|n IH]; intros log; [done|].
  rewrite attempts_S. destruct (attempt_reply E h log 0) as [r|e'] eqn:Hr.
  - destruct (parse_response r); [done|apply IH].
  - cbn [fst]. intros [= ->]. unfold attempt_reply in Hr. eauto.
Qed.

(** When the model does not look at the prompt, the value returned does not
    depend on the history text. *)
Lemma attempts_insensitive (E' : env) (n : nat) (h h' : string) (log log' : list event) :
  (∀ k, random_draw E' k = random_draw E k) →
  (∀ k p p' c, gemini_generate_content E' k p c = gemini_generate_content E k p' c) →
  draws log = draws log' →
  generations log = generations log' →
  fst (attempts E n h log) = fst (attempts E' n h' log').
Proof.
  intros Hdraw Hgen. revert log log'.
  induction n as [|n IH]; intros log log' Hd Hg; [done|].
  rewrite !attempts_S. unfold attempt_reply. rewrite Hg.
  rewrite (Hgen _ (attempt_prompt E' h' log' 0) (attempt_prompt E h log 0)).
  destruct (gemini_generate_content E _ _ _) as [r|e]; [|done].
  destruct (parse_response r); [done|].
  apply IH.
  - by rewrite !draws_app, Hd, !attempt_events_draws.
  - by rewrite !generations_app, Hg, !attempt_events_generations.
Qed.

(** The read of the sheet changes neither count the attempts depend on. *)
Lemma events_upto_after_read (h : string) (log : list event) (k : nat) :
  events_upto E h (log ++ [SheetRead 1]) k = events_upto E h log k.
Proof.
  unfold events_upto. f_equal. apply map_ext. intros j.
  apply attempt_events_counts. rewrite draws_app. cbn. lia.
Qed.

Lemma attempt_reply_after_read (h : string) (log : list event) (k : nat) :
  attempt_reply E h (log ++ [SheetRead 1]) k = attempt_reply E h log k.
Proof.
  apply attempt_reply_counts; rewrite ?draws_app, ?generations_app; cbn; lia.
Qed.

Lemma attempt_fails_after_read (h : string) (log : list event) (k : nat) :
  attempt_fails E h log k → attempt_fails E h (log ++ [SheetRead 1]) k.
Proof. unfold attempt_fails. by rewrite attempt_reply_after_read. Qed.

Lemma run_log_counts (h : string) (log : list event) (k : nat) :
  reads (log ++ SheetRead 1 :: events_upto E h log k) = reads log + 1
  ∧ generations (log ++ SheetRead 1 :: events_upto E h log k) = generations log + k.
Proof.
  destruct (events_upto_counts E h log k) as (Hr & _ & Hg).
  change (SheetRead 1 :: events_upto E h log k)
    with ([SheetRead 1] ++ events_upto E h log k).
  rewrite !reads_app, !generations_app, Hr, Hg. cbn. lia.
Qed.

Lemma create_quote_content_log (log : list event) :
  ∃ k, k ≤ MAX_ATTEMPTS
       ∧ snd (create_quote_content E log)
         = log ++ SheetRead 1 :: events_upto E (history_after E log) log k.
Proof.
  rewrite create_quote_content_unfold.
  destruct (attempts_log MAX_ATTEMPTS (history_after E log) (log ++ [SheetRead 1]))
    as (k & Hk & ->).
  exists k. split; [done|]. by rewrite events_upto_after_read, <- app_assoc.
Qed.

(** One read, then the attempts, all with the history text of that read. *)
Lemma create_quote_content_trace (log : list event) :
  ∃ tail,
    snd (create_quote_content E log) = log ++ SheetRead 1 :: tail
    ∧ reads tail = 0
    ∧ generations tail ≤ MAX_ATTEMPTS
    ∧ ∀ p, p ∈ prompts tail → ∃ theme, p = master_prompt theme (history_after E log).
Proof.
  destruct (create_quote_content_log log) as (k & Hk & Hlog).
  exists (events_upto E (history_after E log) log k).
  destruct (events_upto_counts E (history_after E log) log k) as (Hr & _ & Hg).
  split; [exact Hlog|]. split; [exact Hr|]. split; [lia|].
  intros p Hp. rewrite events_upto_prompts in Hp.
  apply list_elem_of_fmap in Hp as (j & -> & _). unfold attempt_prompt. eauto.
Qed.

Lemma create_quote_content_exhausted (log : list event) :
  (∀ j, j < MAX_ATTEMPTS → attempt_fails E (history_after E log) log j) →
  create_quote_content E log
  = (Ok sentinel,
     log ++ SheetRead 1 :: events_upto E (history_after E log) log MAX_ATTEMPTS).
Proof.
  intros Hf. rewrite create_quote_content_unfold, attempts_exhausted
    by (intros j Hj; by apply attempt_fails_after_read, Hf).
  by rewrite events_upto_after_read, <- app_assoc.
Qed.

Lemma create_quote_content_at (log : list event) (k : nat) :
  k < MAX_ATTEMPTS →
  (∀ j, j < k → attempt_fails E (history_after E log) log j) →
  create_quote_content E log
  = let log' := log ++ SheetRead 1 :: events_upto E (history_after E log) log (S k) in
    match attempt_reply E (history_after E log) log k with
    | Raise e => (Raise e, log')
    | Ok r =>
        match parse_response r with
        | Ok q => (Ok q, log')
        | Raise _ => attempts E (MAX_ATTEMPTS - S k) (history_after E log) log'
        end
    end.
Proof.
  intros Hk Hf. rewrite create_quote_content_unfold.
  rewrite (attempts_at E _ _ k MAX_ATTEMPTS Hk)
    by (intros j Hj; by apply attempt_fails_after_read, Hf).
  by rewrite attempt_reply_after_read, events_upto_after_read, <- app_assoc.
Qed.

End RunFacts.

(** * Facts about [strip], [str] and [int] *)

Section NumberFacts.
Import Py.

Lemma ws_prefix_len_plain c (s : string) :
  is_plain c = true → ws_prefix_len (String c s) = 0.
Proof.
  intros H. destruct c as [[] [] [] [] [] [] [] []];
    first [discriminate H | reflexivity].
Qed.

Lemma is_whitespace_plain c (s : string) :
  is_plain c = true → is_whitespace (String c s) = false.
Proof.
  intros H. destruct c as [[] [] [] [] [] [] [] []];
    first [discriminate H | reflexivity].
Qed.

Lemma lstrip_plain c (s : string) :
  is_plain c = true → lstrip (String c s) = String c s.
Proof. intros H. unfold lstrip. cbn [lstrip_go]. by rewrite ws_prefix_len_plain. Qed.

Lemma rstrip_plain (s : string) : all_plain s = true → rstrip s = s.
Proof.
  induction s as [|c s IH]; [done|]. cbn [all_plain rstrip].
  intros [Hc Hs]%andb_true_iff. rewrite (IH Hs). by rewrite is_whitespace_plain.
Qed.

(** Text without white space is left as it is. *)
Lemma strip_plain (s : string) : all_plain s = true → strip s = s.
Proof.
  intros H. unfold strip. destruct s as [|c s]; [done|].
  pose proof H as [Hc _]%andb_true_iff.
  rewrite lstrip_plain by done. by apply rstrip_plain.
Qed.

Lemma whitespace_nonempty (w : string) : In w whitespace → w ≠ EmptyString.
Proof.
  intros Hw ->. revert Hw. unfold whitespace.
  assert (Forall (fun l => bytes l ≠ EmptyString)
            [ [9]; [10]; [11]; [12]; [13]; [28]; [29]; [30]; [31]; [32];
              [194; 133]; [194; 160]; [225; 154; 128];
              [226; 128; 128]; [226; 128; 129]; [226; 128; 130]; [226; 128; 131];
              [226; 128; 132]; [226; 128; 133]; [226; 128; 134]; [226; 128; 135];
              [226; 128; 136]; [226; 128; 137]; [226; 128; 138];
              [226; 128; 168]; [226; 128; 169]; [226; 128; 175];
              [226; 129; 159]; [227; 128; 128] ]) as Hall
    by (repeat constructor; discriminate).
  intros (l & Hl & Hin)%in_map_iff.
  rewrite List.Forall_forall in Hall. by apply (Hall l Hin).
Qed.

Lemma is_whitespace_In (s : string) : is_whitespace s = true ↔ In s whitespace.
Proof.
  unfold is_whitespace. rewrite existsb_exists. split.
  - by intros (w & Hw & ->%String.eqb_eq).
  - intros Hs. exists s. by rewrite String.eqb_refl.
Qed.

Lemma ws_prefix_len_found (s : string) (k : nat) :
  ws_prefix_len s = S k →
  ∃ w y, In w whitespace ∧ s = w +:+ y ∧ String.length w = S k.
Proof.
  unfold ws_prefix_len.
  destruct (List.find (fun w => String.prefix w s) whitespace) as [w|] eqn:Hf; [|done].
  apply find_some in Hf as [Hin Hp]. intros Hlen.
  destruct (prefix_decompose _ _ Hp) as [y ->]. eauto.
Qed.

Lemma ws_prefix_len_none (s w : string) :
  ws_prefix_len s = 0 → In w whitespace → String.prefix w s = false.
Proof.
  unfold ws_prefix_len.
  destruct (List.find (fun w => String.prefix w s) whitespace) as [v|] eqn:Hf.
  - apply find_some in Hf as [Hin _]. intros Hlen _.
    apply whitespace_nonempty in Hin. by destruct v.
  - intros _ Hw. by apply (find_none _ _ Hf).
Qed.

Lemma lstrip_go_skip (u y : string) :
  lstrip_go (String.length u) (u +:+ y) = lstrip_go 0 y.
Proof.
  induction u as [|a u IH]; [reflexivity|]. rewrite append_cons. exact IH.
Qed.

Lemma blank_app (x y : string) : blank x → blank y → blank (x +:+ y).
Proof.
  induction 1 as [|w x Hw Hx IH]; intros Hy; [done|].
  rewrite append_assoc. constructor; auto.
Qed.

Lemma blank_single (w : string) : In w whitespace → blank w.
Proof.
  intros Hw. rewrite <- (append_empty_r w). apply blank_cons; [exact Hw|constructor].
Qed.

(** [lstrip] removes a blank run and stops at a character that is not
    white space. *)
Lemma lstrip_spec (s : string) :
  ∃ l, s = l +:+ lstrip s ∧ blank l
       ∧ ∀ w, In w whitespace → String.prefix w (lstrip s) = false.
Proof.
  remember (String.length s) as n eqn:Hn. revert s Hn.
  induction n as [n IH] using lt_wf_ind. intros s Hn.
  destruct s as [|c s].
  { exists EmptyString. repeat split; [constructor|].
    intros w Hw. apply prefix_empty_r. by apply whitespace_nonempty. }
  unfold lstrip. cbn [lstrip_go].
  destruct (ws_prefix_len (String c s)) as [|k] eqn:Hk.
  - exists EmptyString. repeat split; [constructor|].
    intros w Hw. by apply ws_prefix_len_none.
  - destruct (ws_prefix_len_found _ _ Hk) as (w & y & Hw & Hs & Hlen).
    destruct w as [|c' w]; [done|]. rewrite append_cons in Hs.
    injection Hs as <- ->. injection Hlen as <-.
    rewrite lstrip_go_skip. change (lstrip_go 0 y) with (lstrip y).
    assert (String.length y < n) as Hlt
      by (rewrite Hn; cbn [String.length]; rewrite length_append; lia).
    destruct (IH _ Hlt y eq_refl) as (l & Hy & Hl & Hclean).
    exists (String c w +:+ l). repeat split.
    + rewrite append_assoc, <- append_cons. by rewrite <- Hy.
    + by constructor.
    + exact Hclean.
Qed.

(** [rstrip] removes a blank run at the end and leaves none. *)
Lemma rstrip_spec (s : string) :
  ∃ r, s = rstrip s +:+ r ∧ blank r
       ∧ ∀ w x, In w whitespace → rstrip s ≠ x +:+ w.
Proof.
  induction s as [|c s (r & Hs & Hr & Hclean)].
  - exists EmptyString. repeat split; [constructor|].
    intros w x Hw. apply whitespace_nonempty in Hw.
    destruct x; [by destruct w|done].
  - cbn [rstrip]. destruct (is_whitespace (String c (rstrip s))) eqn:Hws.
    + apply is_whitespace_In in Hws.
      exists (String c (rstrip s) +:+ r). repeat split.
      * rewrite append_empty_l, append_cons. by rewrite <- Hs.
      * by constructor.
      * intros w x Hw. apply whitespace_nonempty in Hw.
        destruct x; [by destruct w|done].
    + exists r. repeat split; [by rewrite append_cons, <- Hs|done|].
      intros w x Hw Heq. destruct x as [|a x].
      * rewrite append_empty_l in Heq. rewrite Heq in Hws.
        by rewrite (proj2 (is_whitespace_In w) Hw) in Hws.
      * rewrite append_cons in Heq. injection Heq as _ Heq. by apply (Hclean w x).
Qed.

(** [strip] does what [trimmed] asks for. *)
Lemma strip_trimmed (s : string) : trimmed s (strip s).
Proof.
  unfold strip.
  destruct (lstrip_spec s) as (l & Hs & Hl & Hstart).
  destruct (rstrip_spec (lstrip s)) as (r & Hm & Hr & Hend).
  split.
  - exists l, r. repeat split; [|done..]. by rewrite <- Hm.
  - intros w Hw. split; [|intros x; by apply Hend].
    destruct (String.prefix w (rstrip (lstrip s))) eqn:Hp; [|done].
    apply (prefix_app_mono _ _ r) in Hp. rewrite <- Hm in Hp.
    by rewrite (Hstart w Hw) in Hp.
Qed.

Lemma all_digits_app (x y : string) :
  all_digits (x +:+ y) = all_digits x && all_digits y.
Proof.
  induction x as [|c x IH]; [done|].
  rewrite append_cons. cbn [all_digits]. by rewrite IH, andb_assoc.
Qed.

Lemma is_digit_plain c : is_digit c = true → is_plain c = true.
Proof.
  destruct c as [[] [] [] [] [] [] [] []]; intros H;
    first [discriminate H | reflexivity].
Qed.

Lemma all_digits_plain (s : string) : all_digits s = true → all_plain s = true.
Proof.
  induction s as [|c s IH]; [done|]. cbn [all_digits all_plain].
  intros [Hc Hs]%andb_true_iff. by rewrite (is_digit_plain _ Hc), (IH Hs).
Qed.

Lemma digit_cases (d : Z) :
  (0 ≤ d < 10)%Z →
  d = 0%Z ∨ d = 1%Z ∨ d = 2%Z ∨ d = 3%Z ∨ d = 4%Z
  ∨ d = 5%Z ∨ d = 6%Z ∨ d = 7%Z ∨ d = 8%Z ∨ d = 9%Z.
Proof. lia. Qed.

Lemma digit_val_char (d : Z) :
  (0 ≤ d < 10)%Z → digit_val (digit_char d) = Some d.
Proof. intros H. destruct (digit_cases d H) as [->|[->|[->|[->|[->|[->|[->|[->|[->| ->]]]]]]]]]; reflexivity. Qed.

Lemma digit_char_underscore (d : Z) :
  (0 ≤ d < 10)%Z → Ascii.eqb (digit_char d) "_" = false.
Proof. intros H. destruct (digit_cases d H) as [->|[->|[->|[->|[->|[->|[->|[->|[->| ->]]]]]]]]]; reflexivity. Qed.

Lemma is_digit_char (d : Z) : (0 ≤ d < 10)%Z → is_digit (digit_char d) = true.
Proof. intros H. unfold is_digit. by rewrite digit_val_char. Qed.

Lemma scan_digits_app (acc : Z) (b : bool) (x y : string) :
  scan_digits acc b (x +:+ y)
  = match scan_digits acc b x with
    | Some (acc', b') => scan_digits acc' b' y
    | None => None
    end.
Proof.
  revert acc b. induction x as [|c x IH]; intros acc b; [done|].
  rewrite append_cons. cbn [scan_digits].
  destruct (Ascii.eqb c "_"); [destruct b; [apply IH|done]|].
  destruct (digit_val c); [apply IH|done].
Qed.

Lemma scan_digits_last (acc : Z) (b : bool) (d : Z) :
  (0 ≤ d < 10)%Z →
  scan_digits acc b (String (digit_char d) EmptyString) = Some ((10 * acc + d)%Z, true).
Proof.
  intros H. cbn [scan_digits]. by rewrite digit_char_underscore, digit_val_char.
Qed.

Lemma digits_of_S (f : nat) (n : Z) :
  digits_of (S f) n
  = (if (n <? 10)%Z then EmptyString else digits_of f (n / 10)%Z)
    +:+ String (digit_char (n mod 10)%Z) EmptyString.
Proof. reflexivity. Qed.

(** Reading back the digits written for [n] gives [n], when the fuel covers
    the binary length of [n]. *)
Lemma scan_digits_of (f : nat) (n : Z) :
  (0 ≤ n < 2 ^ Z.of_nat (S f))%Z →
  scan_digits 0 false (digits_of (S f) n) = Some (n, true).
Proof.
  revert n. induction f as [|f IH]; intros n Hn;
    rewrite digits_of_S, scan_digits_app;
    assert (0 ≤ n mod 10 < 10)%Z as Hd by (apply Z.mod_pos_bound; lia);
    (destruct (Z.ltb_spec n 10) as [Hlt|Hge];
     cbv iota;
     [ change (scan_digits 0 false EmptyString) with (Some (0%Z, false)); cbv iota;
       rewrite scan_digits_last by done;
       rewrite Z.mod_small by lia; by rewrite Z.mul_0_r | ]).
  - change (2 ^ Z.of_nat 1)%Z with 2%Z in Hn. lia.
  - rewrite Nat2Z.inj_succ, Z.pow_succ_r in Hn by lia.
    rewrite IH by (split; [apply Z.div_pos; lia | apply Z.div_lt_upper_bound; lia]).
    rewrite scan_digits_last by done.
    f_equal. f_equal. rewrite (Z.div_mod n 10) at 3 by lia. lia.
Qed.

Lemma digits_of_all_digits (f : nat) (n : Z) :
  (0 ≤ n)%Z → all_digits (digits_of f n) = true.
Proof.
  revert n. induction f as [|f IH]; intros n Hn; [done|].
  rewrite digits_of_S, all_digits_app. cbn [all_digits].
  rewrite is_digit_char by (apply Z.mod_pos_bound; lia).
  destruct (n <? 10)%Z; [done|].
  rewrite IH by (apply Z.div_pos; lia). done.
Qed.

Lemma digits_of_nonempty (f : nat) (n : Z) : digits_of (S f) n ≠ EmptyString.
Proof.
  rewrite digits_of_S.
  by destruct (if (n <? 10)%Z then EmptyString else digits_of f (n / 10)%Z).
Qed.

Lemma log2_fuel (n : Z) :
  (0 ≤ n)%Z → (0 ≤ n < 2 ^ Z.of_nat (S (Z.to_nat (Z.log2 n))))%Z.
Proof.
  intros Hn. split; [done|].
  rewrite Nat2Z.inj_succ, Z2Nat.id by apply Z.log2_nonneg.
  destruct (Z.eq_dec n 0%Z) as [->|Hz]; [done|].
  apply Z.log2_spec. lia.
Qed.

(** The chain [str] then [int] on the digits alone. *)
Lemma int_digits_of (n : Z) :
  (0 ≤ n)%Z →
  int_digits (digits_of (S (Z.to_nat (Z.log2 n))) n) = Some n.
Proof.
  intros Hn. unfold int_digits. by rewrite scan_digits_of by (by apply log2_fuel).
Qed.

Lemma int_unsigned (t : string) :
  all_digits t = true → t ≠ EmptyString →
  int t = match int_digits t with Some v => Ok v | None => Raise ValueError end.
Proof.
  intros Hd Hne. unfold int. rewrite strip_plain by (by apply all_digits_plain).
  destruct t as [|c s]; [done|].
  apply andb_true_iff in Hd as [Hc _].
  destruct c as [[] [] [] [] [] [] [] []];
    first [discriminate Hc | reflexivity].
Qed.

Lemma int_negative (t : string) :
  all_digits t = true →
  int (String "-" t)
  = match int_digits t with Some v => Ok (- v)%Z | None => Raise ValueError end.
Proof.
  intros Hd. unfold int.
  rewrite strip_plain by (cbn [all_plain]; by rewrite all_digits_plain).
  by destruct (int_digits t).
Qed.

(** What [str] writes, [int] reads back. *)
Lemma int_str (n : Z) : int (str n) = Ok n.
Proof.
  unfold str. destruct (Z.ltb_spec n 0) as [Hneg|Hpos].
  - rewrite int_negative by (apply digits_of_all_digits; lia).
    rewrite int_digits_of by lia. f_equal. lia.
  - rewrite int_unsigned
      by (apply digits_of_all_digits || apply digits_of_nonempty; lia).
    by rewrite int_digits_of.
Qed.

(** [int] raises nothing but [ValueError]. *)
Lemma int_raises (s : string) (e : exn) : int s = Raise e → e = ValueError.
Proof.
  unfold int.
  destruct (match strip s with
            | String "+" t' => int_digits t'
            | String "-" t' => Z.opp <$> int_digits t'
            | _ => int_digits (strip s)
            end); congruence.
Qed.

End NumberFacts.

(** * Facts about the sequential selector *)

Section SelectorFacts.
Import Py Selector.

Lemma state_file_not_video : endswith state_file ".mp4" = false.
Proof. reflexivity. Qed.

(** Writing the state file leaves the candidates as they were: the file is
    in their folder, but its name does not end in [.mp4]. *)
Lemma listing_write (dir : gmap string string) (v : string) :
  filter (fun f => endswith f ".mp4" = true) (map_to_list (<[state_file := v]> dir)).*1
  ≡ₚ filter (fun f => endswith f ".mp4" = true) (map_to_list dir).*1.
Proof.
  assert (∀ (m : gmap string string) x, m !! state_file = None →
            filter (fun f => endswith f ".mp4" = true)
                   (map_to_list (<[state_file := x]> m)).*1
            ≡ₚ filter (fun f => endswith f ".mp4" = true) (map_to_list m).*1) as Hfresh.
  { intros m x Hm. rewrite (map_to_list_insert m state_file x Hm).
    rewrite fmap_cons. cbn [fst]. rewrite filter_cons_False; [done|].
    by rewrite state_file_not_video. }
  destruct (dir !! state_file) as [y|] eqn:Hd; [|by apply Hfresh].
  rewrite <- (insert_delete_eq dir state_file v).
  rewrite <- (insert_delete_id dir state_file y Hd) at 2.
  rewrite !Hfresh by apply lookup_delete_eq. done.
Qed.

Lemma available_videos_write (dir : gmap string string) (v : string) :
  available_videos (<[state_file := v]> dir) = available_videos dir.
Proof.
  unfold available_videos, sorted.
  apply (Sorted_unique String.le); try apply Sorted_merge_sort; try apply _.
  rewrite !merge_sort_Permutation. apply listing_write.
Qed.

(** The candidates: the names of the folder that end in [.mp4], in order. *)
Lemma available_videos_sorted (dir : gmap string string) :
  Sorted String.le (available_videos dir).
Proof. unfold available_videos, sorted. apply Sorted_merge_sort; apply _. Qed.

Lemma available_videos_elem (dir : gmap string string) (v : string) :
  v ∈ available_videos dir ↔ is_Some (dir !! v) ∧ endswith v ".mp4" = true.
Proof.
  unfold available_videos, sorted.
  rewrite merge_sort_Permutation, list_elem_of_filter, list_elem_of_fmap.
  split.
  - intros (Hv & [k x] & -> & Hin%elem_of_map_to_list). cbn in *. eauto.
  - intros ([x Hx] & Hv). split; [done|].
    exists (v, x). split; [done|]. by apply elem_of_map_to_list.
Qed.

Lemma last_index_total (dir : gmap string string) : ∃ L, last_index dir = Ok L.
Proof.
  unfold last_index. destruct (dir !! state_file) as [txt|]; [|eauto].
  destruct (int txt) as [n|e] eqn:Hi; [eauto|].
  rewrite (int_raises _ _ Hi). eauto.
Qed.

Lemma last_index_write (dir : gmap string string) (n : Z) :
  last_index (<[state_file := str n]> dir) = Ok n.
Proof. unfold last_index. by rewrite lookup_insert_eq, int_str. Qed.

Lemma getitem_in_range {A} (l : list A) (i : Z) (d : A) :
  (0 ≤ i < Z.of_nat (length l))%Z → getitem l i = Ok (nth (Z.to_nat i) l d).
Proof.
  intros Hi. rewrite <- (Z2Nat.id i) at 1 by lia. apply getitem_nat. lia.
Qed.

(** One run on a folder with at least one candidate. *)
Lemma sequential_selector_run (dir : gmap string string) (L : Z) :
  let N := Z.of_nat (length (available_videos dir)) in
  (1 ≤ N)%Z →
  last_index dir = Ok L →
  sequential_selector dir
  = Return {| next_index := (L + 1) mod N;
              chosen_video_path :=
                path_join background_video_folder
                  (nth (Z.to_nat ((L + 1) mod N)) (available_videos dir) "");
              folder_after := <[state_file := str ((L + 1) mod N)]> dir |}.
Proof.
  intros N HN HL. unfold sequential_selector.
  destruct (available_videos dir) as [|v vs] eqn:Hv; [cbn in N; lia|].
  unfold select_step. rewrite HL, bind_Ok. unfold mod_.
  destruct (Z.eqb_spec (Z.of_nat (length (v :: vs))) 0) as [?|_]; [lia|].
  rewrite bind_Ok.
  rewrite (getitem_in_range (v :: vs) _ "") by (apply Z.mod_pos_bound; lia).
  by rewrite bind_Ok.
Qed.

Lemma successive_runs_spec (k : nat) (dir : gmap string string) (L : Z) :
  let N := Z.of_nat (length (available_videos dir)) in
  (1 ≤ N)%Z →
  last_index dir = Ok L →
  successive_runs k dir = (fun i => (L + 1 + Z.of_nat i) mod N)%Z <$> seq 0 k.
Proof.
  intros N HN. revert dir L N HN. induction k as [|k IH]; intros dir L N HN HL; [done|].
  cbn [successive_runs]. rewrite (sequential_selector_run dir L HN HL).
  cbn [next_index folder_after]. fold N.
  rewrite (IH _ ((L + 1) mod N)%Z);
    [| by rewrite available_videos_write | apply last_index_write].
  rewrite available_videos_write. fold N.
  cbn [seq fmap list_fmap]. rewrite Z.add_0_r. f_equal.
  rewrite <- fmap_S_seq, <- list_fmap_compose.
  apply list_fmap_ext. intros _ i _. cbn.
  rewrite <- Z.add_assoc, Zplus_mod_idemp_l. f_equal. lia.
Qed.

(** The [try] block runs the selector on the folder of the videos, once a
    piece of music has been drawn. *)
Lemma choose_media_selector (r : nat) (fs : files) (music dir : gmap string string) :
  psych_music fs = Some music →
  psych_temp fs = Some dir →
  filter (fun f => endswith f ".mp3" = true) (map_to_list music).*1 ≠ [] →
  ∃ m, choose_media r fs
       = match sequential_selector dir with
         | Return s => Return (path_join music_folder m, s)
         | Exit h => Exit h
         end.
Proof.
  intros Hm Hd Hne. unfold choose_media. rewrite Hm, Hd. cbn [listdir].
  rewrite !bind_Ok.
  destruct (filter _ _) as [|m ms] eqn:Hf; [done|].
  unfold choice.
  rewrite (getitem_nat (m :: ms) _ "") by (apply Nat.mod_upper_bound; done).
  rewrite !bind_Ok. eauto.
Qed.

(** A window of [N] consecutive residues is a rearrangement of [0 .. N-1]. *)
Lemma cycle_Permutation (c : Z) (n : nat) :
  ((fun i => (c + Z.of_nat i) mod Z.of_nat n)%Z <$> seq 0 n) ≡ₚ seqZ 0 (Z.of_nat n).
Proof.
  destruct n as [|n']; [done|]. set (n := S n'). set (N := Z.of_nat n).
  assert (0 < N)%Z as HN by (unfold N, n; lia).
  apply submseteq_length_Permutation.
  - apply NoDup_submseteq.
    + apply NoDup_fmap_2_strong; [|apply NoDup_seq].
      intros i j [_ Hi]%elem_of_seq [_ Hj]%elem_of_seq Heq.
      assert (((c + Z.of_nat i) - (c + Z.of_nat j)) mod N = 0)%Z as H0
        by (rewrite Zminus_mod, Heq, Z.sub_diag; by apply Z.mod_0_l, Z.neq_sym, Z.lt_neq).
      apply Z.mod_divide in H0 as [q Hq]; [|lia].
      assert (- N < q * N < N)%Z as Hb by (unfold N in *; lia).
      assert (q = 0%Z) as -> by nia. lia.
    + intros x (i & -> & _)%list_elem_of_fmap.
      apply elem_of_seqZ. pose proof (Z.mod_pos_bound (c + Z.of_nat i) N HN). lia.
  - rewrite length_seqZ, length_fmap, length_seq. lia.
Qed.

End SelectorFacts.

(** * The selector: round robin, first run, state invariant *)

Section SelectorClaims.
Import Py Selector Samples.

(** C1. For a folder with N >= 1 candidates whose state holds the index L,
    one run of the selector returns (L+1) mod N and writes that index to the
    state file, where the next run reads it back; the candidates are as
    before.  Hence runs that follow one another return (L+1) mod N,
    (L+2) mod N, ...; from a folder without state file they return 0, 1, ...,
    N-1, 0, 1, ...; and any N runs in a row return every index of 0..N-1
    exactly once. *)
Theorem selector_round_robin (dir : gmap string string) (L : Z) :
  let N := Z.of_nat (length (available_videos dir)) in
  (1 ≤ N)%Z →
  last_index dir = Ok L →
  (∃ s, sequential_selector dir = Return s
        ∧ next_index s = ((L + 1) mod N)%Z
        ∧ (∃ v, available_videos dir !! Z.to_nat (next_index s) = Some v
                ∧ chosen_video_path s = path_join background_video_folder v)
        ∧ folder_after s = <[state_file := str (next_index s)]> dir
        ∧ last_index (folder_after s) = Ok (next_index s)
        ∧ available_videos (folder_after s) = available_videos dir)
  ∧ (∀ k, successive_runs k dir = (fun i => (L + 1 + Z.of_nat i) mod N)%Z <$> seq 0 k)
  ∧ (dir !! state_file = None →
     ∀ k, successive_runs k dir = (fun i => Z.of_nat i mod N)%Z <$> seq 0 k)
  ∧ successive_runs (Z.to_nat N) dir ≡ₚ seqZ 0 N.
Proof.
  intros N HN HL. split; [|split; [|split]].
  - eexists. split; [by apply sequential_selector_run|]. cbn [next_index folder_after].
    fold N. split; [reflexivity|]. split; [|split; [reflexivity|split]].
    + assert (Z.to_nat ((L + 1) mod N) < length (available_videos dir)) as Hlt
        by (pose proof (Z.mod_pos_bound (L + 1) N ltac:(lia)); lia).
      destruct (lookup_lt_is_Some_2 _ _ Hlt) as [v Hv].
      exists v. split; [exact Hv|]. by rewrite (nth_lookup_Some _ _ _ _ Hv).
    + apply last_index_write.
    + apply available_videos_write.
  - intros k. by apply successive_runs_spec.
  - intros Hnone k. unfold last_index in HL. rewrite Hnone in HL.
    injection HL as <-. rewrite (successive_runs_spec k dir (-1) HN).
    + apply list_fmap_ext. intros _ i _. fold N. f_equal; lia.
    + unfold last_index. by rewrite Hnone.
  - rewrite (successive_runs_spec _ dir L HN HL). subst N.
    rewrite Nat2Z.id. apply (cycle_Permutation (L + 1)).
Qed.

Lemma selector_round_robin_witness :
  (1 ≤ Z.of_nat (length (available_videos fresh_folder)))%Z
  ∧ last_index fresh_folder = Ok (-1)%Z
  ∧ successive_runs 7 fresh_folder = [0; 1; 2; 0; 1; 2; 0]%Z
  ∧ successive_runs 3 stale_folder ≡ₚ [0; 1; 2]%Z.
Proof.
  assert (1 ≤ Z.of_nat (length (available_videos fresh_folder)))%Z as H1
    by (vm_compute; discriminate).
  assert (1 ≤ Z.of_nat (length (available_videos stale_folder)))%Z as H2
    by (vm_compute; discriminate).
  assert (last_index fresh_folder = Ok (-1)%Z) as L1 by reflexivity.
  assert (last_index stale_folder = Ok 7%Z) as L2 by reflexivity.
  split; [exact H1|]. split; [exact L1|]. split.
  - destruct (selector_round_robin fresh_folder (-1) H1 L1) as (_ & _ & Hfresh & _).
    rewrite (Hfresh eq_refl 7). reflexivity.
  - destruct (selector_round_robin stale_folder 7 H2 L2) as (_ & _ & _ & Hperm).
    exact Hperm.
Defined.



(** Texts that [int] rejects, and texts it accepts. *)
Example int_rejects :
  int "" = Raise ValueError ∧ int "next" = Raise ValueError
  ∧ int "1.5" = Raise ValueError ∧ int "1 2" = Raise ValueError
  ∧ int "0x10" = Raise ValueError ∧ int "--1" = Raise ValueError.
Proof. repeat split. Qed.

Example int_accepts :
  int (" 12" +:+ nl) = Ok 12%Z ∧ int "-3" = Ok (-3)%Z ∧ int "+4" = Ok 4%Z
  ∧ int "007" = Ok 7%Z ∧ int "1_000" = Ok 1000%Z.
Proof. repeat split. Qed.

(** C9. After every run that returns, the state file holds the decimal
    text of the index returned, which [int] reads back as that index, and
    that index is in 0..N-1, whatever the folder held before (an absent,
    garbled, negative or too large state included); no other file of the
    folder is touched.  A run returns whenever there is a candidate. *)
Theorem selector_state_invariant (dir : gmap string string) (s : selection) :
  sequential_selector dir = Return s →
  let N := Z.of_nat (length (available_videos dir)) in
  (0 ≤ next_index s < N)%Z
  ∧ folder_after s !! state_file = Some (str (next_index s))
  ∧ int (str (next_index s)) = Ok (next_index s)
  ∧ (∀ f, f ≠ state_file → folder_after s !! f = dir !! f).
Proof.
  intros Hrun N.
  assert (1 ≤ N)%Z as HN.
  { unfold sequential_selector in Hrun. subst N.
    destruct (available_videos dir); [done|]. cbn [length]. lia. }
  destruct (last_index_total dir) as [L HL].
  rewrite (sequential_selector_run dir L HN HL) in Hrun.
  injection Hrun as <-. cbn [next_index folder_after]. fold N.
  split; [apply Z.mod_pos_bound; lia|].
  split; [apply lookup_insert_eq|].
  split; [apply int_str|].
  intros f Hf. by apply lookup_insert_ne.
Qed.

Lemma selector_state_invariant_witness :
  ∃ s, sequential_selector stale_folder = Return s
       ∧ next_index s = 2%Z
       ∧ folder_after s !! state_file = Some "2".
Proof.
  destruct (sequential_selector stale_folder) as [s|h] eqn:Hrun;
    [|vm_compute in Hrun; discriminate Hrun].
  exists s. split; [reflexivity|].
  destruct (selector_state_invariant stale_folder s Hrun) as (_ & Hfile & _ & _).
  assert (next_index s = 2%Z) as Hidx
    by (vm_compute in Hrun; injection Hrun as <-; reflexivity).
  split; [exact Hidx|]. rewrite Hfile, Hidx. reflexivity.
Defined.

End SelectorClaims.

(** * The response parser *)

Section ParserClaims.
Import Py Generator Samples.

(** C2. A reply that reads PART_1: a PART_2: b TITLE: c, each marker
    occurring once in the whole text, is parsed to the three payloads, each
    without the white space around it; a generator whose first reply is
    such a text returns that triple after this one call of the model.  On
    the text of the format line, with payloads A, B, C, the result is
    exactly ("A", "B", "C"). *)
Theorem parse_well_formed (a b c : string) :
  let t := "PART_1:" +:+ a +:+ "PART_2:" +:+ b +:+ "TITLE:" +:+ c in
  occurrences "PART_1:" t = 1 →
  occurrences "PART_2:" t = 1 →
  occurrences "TITLE:" t = 1 →
  parse_response {| text := Ok t |} = Ok (strip a, strip b, strip c)
  ∧ (trimmed a (strip a) ∧ trimmed b (strip b) ∧ trimmed c (strip c))
  ∧ (∀ E log,
       attempt_reply E (history_after E log) log 0 = Ok {| text := Ok t |} →
       fst (create_quote_content E log) = Ok (strip a, strip b, strip c)
       ∧ generations (snd (create_quote_content E log)) = generations log + 1)
  ∧ parse_response {| text := Ok ("PART_1: A" +:+ nl +:+ "PART_2: B" +:+ nl +:+ "TITLE: C") |}
    = Ok ("A", "B", "C").
Proof.
  intros t H1 H2 H3.
  assert (parse_response {| text := Ok t |} = Ok (strip a, strip b, strip c)) as Hparse.
  { etransitivity; [exact (parse_response_shape ("PART_1:" +:+ a) b c H2 H3)|].
    rewrite replace_head, append_empty_l by done.
    rewrite replace_absent; [done|].
    pose proof (occurrences_middle "PART_1:" EmptyString
                  (a +:+ "PART_2:" +:+ b +:+ "TITLE:" +:+ c) ltac:(done)) as Hm.
    pose proof (occurrences_app "PART_1:" a
                  ("PART_2:" +:+ b +:+ "TITLE:" +:+ c) ltac:(done)) as Ha.
    change (EmptyString +:+ "PART_1:" +:+ a +:+ "PART_2:" +:+ b +:+ "TITLE:" +:+ c)
      with t in Hm.
    lia. }
  split; [exact Hparse|].
  split; [auto using strip_trimmed|].
  split; [|reflexivity].
  intros E log Hreply.
  rewrite (create_quote_content_at E log 0) by (unfold MAX_ATTEMPTS; intros; lia).
  cbv zeta. rewrite Hreply, Hparse. cbn [fst snd]. split; [done|].
  apply run_log_counts.
Qed.

Lemma parse_well_formed_witness :
  parse_response {| text := Ok ("PART_1:  one " +:+ nl +:+ "PART_2: two" +:+ nl
                                +:+ "TITLE: three" +:+ nl) |}
  = Ok ("one", "two", "three").
Proof.
  pose proof (parse_well_formed ("  one " +:+ nl) (" two" +:+ nl) (" three" +:+ nl)
                eq_refl eq_refl eq_refl) as (H & _).
  exact H.
Defined.

(** C3, as the code has it.  The claim names three markers; the parser asks
    for two.  A reply without PART_2: or without TITLE: fails to parse, and
    the loop goes on to the next attempt.  PART_1: is not asked for: in a
    reply p PART_2: b TITLE: c with the two markers occurring once, the
    first component is p with every PART_1: taken out, whatever p is. *)
Theorem parse_missing_marker (t : string) :
  (occurrences "PART_2:" t = 0 ∨ occurrences "TITLE:" t = 0 →
   parse_response {| text := Ok t |} = Raise IndexError
   ∧ ∀ E h log n,
       attempt_reply E h log 0 = Ok {| text := Ok t |} →
       attempts E (S n) h log = attempts E n h (log ++ attempt_events E h log 0))
  ∧ (∀ p b c,
       t = p +:+ "PART_2:" +:+ b +:+ "TITLE:" +:+ c →
       occurrences "PART_2:" t = 1 →
       occurrences "TITLE:" t = 1 →
       parse_response {| text := Ok t |}
       = Ok (strip (replace "PART_1:" "" p), strip b, strip c)).
Proof.
  split.
  - intros H.
    assert (parse_response {| text := Ok t |} = Raise IndexError) as Hparse
      by (destruct H; [by apply parse_response_no_part2|by apply parse_response_no_title]).
    split; [exact Hparse|].
    intros E h log n Hreply. by rewrite attempts_S, Hreply, Hparse.
  - intros p b c -> H2 H3. by apply parse_response_shape.
Qed.

Lemma parse_missing_marker_witness :
  parse_response {| text := Ok "PART_1: a PART_2: b" |} = Raise IndexError
  ∧ parse_response {| text := Ok "PART_1: a TITLE: c" |} = Raise IndexError
  ∧ parse_response {| text := Ok "a PART_2: b TITLE: c" |} = Ok ("a", "b", "c").
Proof.
  split; [|split].
  - apply (parse_missing_marker "PART_1: a PART_2: b"). right. reflexivity.
  - apply (parse_missing_marker "PART_1: a TITLE: c"). left. reflexivity.
  - apply (proj2 (parse_missing_marker "a PART_2: b TITLE: c") "a " " b " " c");
      reflexivity.
Defined.

(** C3 as stated fails: a reply without PART_1:, and a reply that is not
    laid out on three lines, both parse. *)
Lemma parse_without_part1 :
  occurrences "PART_1:" "PART_2: b TITLE: c" = 0
  ∧ parse_response {| text := Ok "PART_2: b TITLE: c" |} = Ok ("", "b", "c")
  ∧ parse_response {| text := Ok "Sure! PART_1:aPART_2:bTITLE:c" |}
    = Ok ("Sure! a", "b", "c").
Proof. repeat split. Qed.

End ParserClaims.

(** * The retry loop *)

Section GeneratorClaims.
Import Py Generator Samples.

(** C4. A call of the generator asks the model at most five times.  When
    all five replies fail to parse, it returns the sentinel ("Error", "Could
    not generate unique quote.", "Error") after the fifth.  When the replies
    before the k-th attempt fail and the k-th parses, it returns the parsed
    triple at once: the model has been asked k+1 times and is not asked
    again. *)
Theorem create_quote_content_attempts (E : env) (log : list event) :
  let h := history_after E log in
  let out := create_quote_content E log in
  generations (snd out) ≤ generations log + 5
  ∧ ((∀ j, j < 5 → attempt_fails E h log j) →
     fst out = Ok ("Error", "Could not generate unique quote.", "Error")
     ∧ generations (snd out) = generations log + 5)
  ∧ (∀ k r q,
       k < 5 →
       (∀ j, j < k → attempt_fails E h log j) →
       attempt_reply E h log k = Ok r →
       parse_response r = Ok q →
       fst out = Ok q ∧ generations (snd out) = generations log + S k).
Proof.
  intros h out. subst out. split; [|split].
  - destruct (create_quote_content_log E log) as (k & Hk & ->).
    rewrite (proj2 (run_log_counts E _ log k)). unfold MAX_ATTEMPTS in Hk. lia.
  - intros Hf. rewrite (create_quote_content_exhausted E log Hf). cbn [fst snd].
    split; [reflexivity|]. apply run_log_counts.
  - intros k r q Hk Hf Hr Hq.
    rewrite (create_quote_content_at E log k Hk Hf). cbv zeta.
    fold h. rewrite Hr, Hq. cbn [fst snd]. split; [reflexivity|].
    apply run_log_counts.
Qed.

Lemma never_parses_fails (h : string) (log : list event) (j : nat) :
  attempt_fails never_parses h log j.
Proof. exists {| text := Ok "I cannot help with that." |}, IndexError. by split. Qed.

Lemma third_time_fails (h : string) (j : nat) : j < 2 → attempt_fails third_time h [] j.
Proof.
  intros Hj. exists {| text := Ok "PART_1: a PART_2: b" |}, IndexError.
  split; [|reflexivity].
  destruct j as [|[|j]]; [reflexivity|reflexivity|lia].
Qed.

Lemma create_quote_content_attempts_witness :
  (fst (create_quote_content never_parses [])
   = Ok ("Error", "Could not generate unique quote.", "Error")
   ∧ generations (snd (create_quote_content never_parses [])) = 5)
  ∧ (fst (create_quote_content third_time []) = Ok ("A", "B", "C")
     ∧ generations (snd (create_quote_content third_time [])) = 3).
Proof.
  split.
  - destruct (create_quote_content_attempts never_parses []) as (_ & Hexhausted & _).
    apply Hexhausted. intros j _. apply never_parses_fails.
  - destruct (create_quote_content_attempts third_time []) as (_ & _ & Hreturn).
    apply (Hreturn 2 {| text := Ok well_formed |} ("A", "B", "C")).
    + lia.
    + intros j Hj. by apply third_time_fails.
    + reflexivity.
    + reflexivity.
Defined.

(** C6, as the code has it.  The sheet is read once in a call of the
    generator, before the first attempt; the history text from that read is
    the one every prompt of the call carries, whatever the number of
    attempts. *)
Theorem history_read_once (E : env) (log : list event) :
  ∃ tail,
    snd (create_quote_content E log) = log ++ SheetRead 1 :: tail
    ∧ reads tail = 0
    ∧ generations tail ≤ 5
    ∧ reads (snd (create_quote_content E log)) = reads log + 1
    ∧ ∀ p, p ∈ prompts tail → ∃ theme, p = master_prompt theme (history_after E log).
Proof.
  destruct (create_quote_content_trace E log) as (tail & Hlog & Hr & Hg & Hp).
  exists tail. split; [exact Hlog|]. split; [exact Hr|]. split; [exact Hg|].
  split; [|exact Hp].
  rewrite Hlog. change (SheetRead 1 :: tail) with ([SheetRead 1] ++ tail).
  rewrite !reads_app, Hr. cbn. lia.
Qed.

(** C6 as stated fails: in a call that goes through five attempts the sheet
    is read once, not five times. *)
Lemma history_read_per_attempt_fails :
  generations (snd (create_quote_content never_parses [])) = 5
  ∧ reads (snd (create_quote_content never_parses [])) = 1.
Proof. split; vm_compute; reflexivity. Qed.

(** C7. When the read of the sheet raises, the history text is "None.",
    every prompt of the call carries it, and the call goes on as from the
    loop: an exception that leaves the call was raised by the model, never by
    the sheet.  The value returned is the one of the same call with a
    readable sheet, as long as the model does not look at the prompt. *)
Theorem history_failure_tolerated (E : env) (log : list event) (e : exn) :
  sheet_col_values E (reads log) 1 = Raise e →
  history_after E log = "None."
  ∧ create_quote_content E log
    = attempts E MAX_ATTEMPTS "None." (log ++ [SheetRead 1])
  ∧ (∃ tail,
       snd (create_quote_content E log) = log ++ SheetRead 1 :: tail
       ∧ ∀ p, p ∈ prompts tail → ∃ theme, p = master_prompt theme "None.")
  ∧ (∀ e', fst (create_quote_content E log) = Raise e' →
       ∃ k prompt config, gemini_generate_content E k prompt config = Raise e')
  ∧ (∀ E',
       (∀ k, random_draw E' k = random_draw E k) →
       (∀ k p p' c, gemini_generate_content E' k p c = gemini_generate_content E k p' c) →
       fst (create_quote_content E' log) = fst (create_quote_content E log)).
Proof.
  intros Hsheet.
  assert (history_after E log = "None.") as Hh
    by (unfold history_after; by rewrite Hsheet).
  split; [exact Hh|].
  split; [by rewrite create_quote_content_unfold, Hh|].
  split; [|split].
  - destruct (create_quote_content_trace E log) as (tail & Hlog & _ & _ & Hp).
    exists tail. split; [exact Hlog|]. by rewrite <- Hh.
  - intros e'. rewrite create_quote_content_unfold. apply attempts_raise_source.
  - intros E' Hdraw Hgen. rewrite !create_quote_content_unfold. symmetry.
    by apply attempts_insensitive.
Qed.

Lemma history_failure_tolerated_witness :
  history_after sheet_down [] = "None."
  ∧ fst (create_quote_content sheet_down []) = Ok ("A", "B", "C")
  ∧ fst (create_quote_content third_time []) = fst (create_quote_content sheet_down []).
Proof.
  destruct (history_failure_tolerated sheet_down [] (OtherError "APIError") eq_refl)
    as (Hh & Hloop & _ & _ & Hsame).
  split; [exact Hh|]. split.
  - rewrite Hloop. vm_compute. reflexivity.
  - apply (Hsame third_time); reflexivity.
Defined.

(** C10. The call of the model is outside the guarded block: when the
    replies before the k-th attempt fail to parse and the k-th call raises,
    that exception leaves the generator; the model is not asked again and no
    triple, so no sentinel, is returned. *)
Theorem generation_error_propagates (E : env) (log : list event) (k : nat) (e : exn) :
  k < 5 →
  (∀ j, j < k → attempt_fails E (history_after E log) log j) →
  attempt_reply E (history_after E log) log k = Raise e →
  fst (create_quote_content E log) = Raise e
  ∧ generations (snd (create_quote_content E log)) = generations log + S k.
Proof.
  intros Hk Hf Hr. rewrite (create_quote_content_at E log k Hk Hf). cbv zeta.
  rewrite Hr. cbn [fst snd]. split; [reflexivity|]. apply run_log_counts.
Qed.

Lemma generation_error_propagates_witness :
  fst (create_quote_content model_down []) = Raise (OtherError "ResourceExhausted")
  ∧ generations (snd (create_quote_content model_down [])) = 2.
Proof.
  apply (generation_error_propagates model_down [] 1).
  - lia.
  - intros j Hj. exists {| text := Ok "busy" |}, IndexError.
    split; [|reflexivity]. destruct j as [|j]; [reflexivity|lia].
  - reflexivity.
Defined.

End GeneratorClaims.

(** * The tag brainstormer *)

Section TagClaims.
Import Py Generator Samples.

Lemma strip_each_trimmed (pieces : list string) :
  Forall2 trimmed pieces (strip <$> pieces).
Proof. induction pieces; constructor; [apply strip_trimmed|done]. Qed.

(** C8. The tags are the pieces of the reply between its commas, each
    without the white space around it: the pieces hold no comma and, joined
    with commas, give the reply back.  There is always at least one tag; the
    reply "a, b ,c" gives ["a"; "b"; "c"] and the empty reply gives one empty
    tag. *)
Theorem tags_split_and_trim (E : env) (title quote_parts : string)
    (log : list event) (t : string) :
  gemini_generate_content E (generations log) (tags_prompt title quote_parts)
    {| temperature := 7 # 10 |} = Ok {| text := Ok t |} →
  (∃ pieces tags,
     fst (generate_extra_tags E title quote_parts log) = Ok tags
     ∧ tags = strip <$> split "," t
     ∧ join "," pieces = t
     ∧ Forall (fun p => occurrences "," p = 0) pieces
     ∧ Forall2 trimmed pieces tags
     ∧ 1 ≤ length tags)
  ∧ strip <$> split "," "a, b ,c" = ["a"; "b"; "c"]
  ∧ strip <$> split "," "" = [""].
Proof.
  intros Hreply. split; [|split; reflexivity].
  exists (split "," t), (strip <$> split "," t).
  split.
  - unfold generate_extra_tags, mbind, M_bind, generate_content. rewrite Hreply.
    reflexivity.
  - split; [done|]. split; [by apply join_split|]. split; [by apply split_pieces|].
    split; [apply strip_each_trimmed|].
    rewrite length_fmap. pose proof (split_nonempty "," t).
    destruct (split "," t); [done|cbn; lia].
Qed.

Lemma tags_split_and_trim_witness :
  gemini_generate_content tagger (generations []) (tags_prompt "T" "hook reveal")
    {| temperature := 7 # 10 |} = Ok {| text := Ok "a, b ,c" |}
  ∧ ∃ tags,
      fst (generate_extra_tags tagger "T" "hook reveal" []) = Ok tags
      ∧ tags = ["a"; "b"; "c"].
Proof.
  split; [reflexivity|].
  destruct (tags_split_and_trim tagger "T" "hook reveal" [] "a, b ,c" eq_refl)
    as ((pieces & tags & Hrun & Htags & _) & _).
  exists tags. split; [exact Hrun|]. rewrite Htags. reflexivity.
Defined.

End TagClaims.

(** * More on the selector and the media check *)

Section MediaFacts.
Import Py Selector Driver.

Lemma available_videos_length (dir : gmap string string) :
  length (available_videos dir)
  = length (filter (fun f => endswith f ".mp4" = true) (map_to_list dir).*1).
Proof. unfold available_videos, sorted. by rewrite merge_sort_Permutation. Qed.

Lemma available_videos_NoDup (dir : gmap string string) : NoDup (available_videos dir).
Proof.
  unfold available_videos, sorted. rewrite merge_sort_Permutation.
  apply NoDup_filter, NoDup_fst_map_to_list.
Qed.

Lemma sequential_selector_returns (dir : gmap string string) :
  available_videos dir ≠ [] → ∃ s, sequential_selector dir = Return s.
Proof.
  intros Hne. destruct (last_index_total dir) as [L HL].
  eexists. apply (sequential_selector_run dir L); [|exact HL].
  destruct (available_videos dir); [done|cbn [length]; lia].
Qed.

Lemma sequential_selector_empty (dir : gmap string string) :
  available_videos dir = [] → sequential_selector dir = Exit NoBackgroundVideos.
Proof. intros H. unfold sequential_selector. by rewrite H. Qed.

Lemma successive_videos_spec (k : nat) (dir : gmap string string) (L : Z) :
  let N := Z.of_nat (length (available_videos dir)) in
  (1 ≤ N)%Z →
  last_index dir = Ok L →
  successive_videos k dir
  = (fun i => path_join background_video_folder
                (nth (Z.to_nat ((L + 1 + Z.of_nat i) mod N)) (available_videos dir) ""))
    <$> seq 0 k.
Proof.
  intros N HN. revert dir L N HN. induction k as [|k IH]; intros dir L N HN HL; [done|].
  cbn [successive_videos]. rewrite (sequential_selector_run dir L HN HL).
  cbn [chosen_video_path folder_after]. fold N.
  rewrite (IH _ ((L + 1) mod N)%Z);
    [| by rewrite available_videos_write | apply last_index_write].
  rewrite available_videos_write. fold N.
  cbn [seq fmap list_fmap]. rewrite Z.add_0_r. f_equal.
  rewrite <- fmap_S_seq, <- list_fmap_compose.
  apply list_fmap_ext. intros _ i _. cbn.
  rewrite <- Z.add_assoc, Zplus_mod_idemp_l.
  by replace (L + 1 + Z.of_nat (S i))%Z with (L + 1 + (1 + Z.of_nat i))%Z by lia.
Qed.

Lemma nth_all {A} (l : list A) (d : A) :
  (fun i => nth i l d) <$> seq 0 (length l) = l.
Proof.
  apply list_eq. intros i. rewrite list_lookup_fmap.
  destruct (decide (i < length l)) as [Hi|Hi].
  - rewrite lookup_seq_lt by done. cbn.
    destruct (lookup_lt_is_Some_2 l i Hi) as [x Hx].
    by rewrite Hx, (nth_lookup_Some _ _ _ _ Hx).
  - rewrite lookup_seq_ge by lia. cbn. symmetry. apply lookup_ge_None. lia.
Qed.

End MediaFacts.

Section MediaExtras.
Import Py Selector Samples Driver DriverSamples.





(** X3. From a folder without state file, as many runs as there are
    candidates use the candidates in the sorted order of their names, each
    once. *)
Theorem videos_in_sorted_order (dir : gmap string string) :
  dir !! state_file = None →
  ∃ names,
    successive_videos (length names) dir = path_join background_video_folder <$> names
    ∧ Sorted String.le names
    ∧ NoDup names
    ∧ ∀ v, v ∈ names ↔ is_Some (dir !! v) ∧ endswith v ".mp4" = true.
Proof.
  intros Hnone. exists (available_videos dir).
  split; [|split; [apply available_videos_sorted|split;
                    [apply available_videos_NoDup|apply available_videos_elem]]].
  destruct (available_videos dir) as [|v0 vs] eqn:Hv; [done|]. rewrite <- Hv.
  assert (1 ≤ Z.of_nat (length (available_videos dir)))%Z as HN
    by (rewrite Hv; cbn [length]; lia).
  assert (last_index dir = Ok (-1)%Z) as HL by (unfold last_index; by rewrite Hnone).
  rewrite (successive_videos_spec _ dir (-1) HN HL).
  assert (path_join background_video_folder <$> available_videos dir
          = path_join background_video_folder
            <$> ((fun i => nth i (available_videos dir) "")
                 <$> seq 0 (length (available_videos dir)))) as ->
    by (by rewrite nth_all).
  rewrite <- list_fmap_compose. apply list_fmap_ext.
  intros k i Hi. apply lookup_seq in Hi as [-> Hi]. cbn. do 2 f_equal.
  replace (-1 + 1 + Z.of_nat k)%Z with (Z.of_nat k) by lia.
  rewrite Z.mod_small by lia. apply Nat2Z.id.
Qed.

Lemma videos_in_sorted_order_witness :
  ∃ names,
    successive_videos (length names) fresh_folder
    = path_join background_video_folder <$> names
    ∧ Sorted String.le names.
Proof.
  destruct (videos_in_sorted_order fresh_folder eq_refl) as (names & Hrun & Hsorted & _).
  exists names. split; [exact Hrun|exact Hsorted].
Defined.

Lemma choose_media_inv (r : nat) (fs : files) (m : string) (s : selection) :
  choose_media r fs = Return (m, s) →
  ∃ music dir name,
    psych_music fs = Some music
    ∧ psych_temp fs = Some dir
    ∧ name ∈ filter (fun f => endswith f ".mp3" = true) (map_to_list music).*1
    ∧ m = path_join music_folder name
    ∧ sequential_selector dir = Return s.
Proof.
  unfold choose_media. destruct (psych_music fs) as [music|]; [|done].
  cbn [listdir]. rewrite bind_Ok.
  destruct (filter _ (map_to_list music).*1) as [|m0 ms] eqn:Hf; [done|].
  unfold choice.
  rewrite (getitem_nat (m0 :: ms) _ "") by (apply Nat.mod_upper_bound; done).
  rewrite bind_Ok. destruct (psych_temp fs) as [dir|]; [|done].
  cbn [listdir]. rewrite !bind_Ok. destruct (sequential_selector dir) as [s'|h] eqn:Hs; [|done].
  intros [= <- <-]. exists music, dir, (nth (r mod length (m0 :: ms)) (m0 :: ms) "").
  repeat split; try done.
  rewrite Hf. apply list_elem_of_In, nth_In, Nat.mod_upper_bound. done.
Qed.

Lemma verify_media_files_iff (r : nat) (fs : files) :
  verify_media_files fs = true ↔ ∃ m s, choose_media r fs = Return (m, s).
Proof.
  split.
  - unfold verify_media_files.
    destruct (psych_music fs) as [music|] eqn:Hm; [|done].
    destruct (psych_temp fs) as [dir|] eqn:Hd;
      [|by rewrite orb_true_r].
    destruct (Nat.eqb_spec (length (filter (fun f => endswith f ".mp3" = true)
                                      (map_to_list music).*1)) 0) as [?|Hmusic];
      [done|].
    destruct (Nat.eqb_spec (length (filter (fun f => endswith f ".mp4" = true)
                                      (map_to_list dir).*1)) 0) as [?|Hvideo];
      [done|]. intros _.
    destruct (choose_media_selector r fs music dir Hm Hd) as [m ->].
    { intros Hnil. by rewrite Hnil in Hmusic. }
    destruct (sequential_selector_returns dir) as [s ->]; [|eauto].
    intros Hnil. rewrite <- available_videos_length, Hnil in Hvideo. done.
  - intros (m & s & Hrun).
    destruct (choose_media_inv r fs m s Hrun) as (music & dir & name & Hm & Hd & Hin & _ & Hs).
    unfold verify_media_files. rewrite Hm, Hd.
    destruct (filter _ (map_to_list music).*1) as [|? ?]; [by apply elem_of_nil in Hin|].
    rewrite <- available_videos_length.
    destruct (available_videos dir) as [|? ?] eqn:Hv; [|done].
    by rewrite (sequential_selector_empty dir Hv) in Hs.
Qed.



(** X5. The music the video stage uses is a file of psych_music whose name
    ends in .mp3, whatever the random generator draws, and the background is
    the one the sequential selector returns for psych_temp. *)
Theorem choose_media_picks_listed_files (r : nat) (fs : files) (m : string) (s : selection) :
  choose_media r fs = Return (m, s) →
  ∃ music dir name,
    psych_music fs = Some music
    ∧ is_Some (music !! name)
    ∧ endswith name ".mp3" = true
    ∧ m = "psych_music/" +:+ name
    ∧ psych_temp fs = Some dir
    ∧ sequential_selector dir = Return s.
Proof.
  intros Hrun.
  destruct (choose_media_inv r fs m s Hrun) as (music & dir & name & Hm & Hd & Hin & -> & Hs).
  exists music, dir, name.
  apply list_elem_of_filter in Hin as [Hext Hin].
  apply list_elem_of_fmap in Hin as ([k x] & -> & Hin%elem_of_map_to_list).
  cbn in *. repeat split; eauto.
Qed.

Lemma choose_media_picks_listed_files_witness :
  ∃ m s name,
    choose_media 7 stocked = Return (m, s)
    ∧ is_Some (music !! name)
    ∧ m = "psych_music/" +:+ name.
Proof.
  destruct (choose_media 7 stocked) as [[m s]|h] eqn:Hrun;
    [|vm_compute in Hrun; discriminate Hrun].
  destruct (choose_media_picks_listed_files 7 stocked m s Hrun)
    as (mu & dir & name & Hm & Hsome & _ & Hpath & _).
  injection Hm as <-. exists m, s, name. split; [reflexivity|]. split; [exact Hsome|exact Hpath].
Defined.

End MediaExtras.

(** * More on the response parser *)

Section MarkerFacts.
Import Py Generator.

Lemma prefix_length (p s : string) :
  String.prefix p s = true → String.length p ≤ String.length s.
Proof.
  intros [y ->]%prefix_decompose. rewrite length_append. lia.
Qed.

(** A beginning of [x z] lies in [x], or covers [x] and goes on in [z]. *)
Lemma prefix_app_split (m x z : string) :
  String.prefix m (x +:+ z) = true →
  String.prefix m x = true
  ∨ ∃ v, v ≠ EmptyString ∧ m = x +:+ v ∧ String.prefix v z = true.
Proof.
  revert m. induction x as [|a x IH]; intros m H.
  - rewrite append_empty_l in H. destruct m as [|b m]; [by left|].
    right. by exists (String b m).
  - destruct m as [|b m]; [by left|].
    rewrite append_cons, prefix_cons in H.
    apply andb_true_iff in H as [Hab H]. apply bool_decide_eq_true in Hab as ->.
    destruct (IH m H) as [Hp|(v & Hv & -> & Hp)].
    + left. rewrite prefix_cons, Hp. by rewrite bool_decide_eq_true_2.
    + right. by exists v.
Qed.

Lemma prefix_app_short (v m y : string) :
  String.prefix v (m +:+ y) = true →
  String.length v ≤ String.length m →
  String.prefix v m = true.
Proof.
  intros H Hlen. destruct (prefix_app_split v m y H) as [Hp|(u & Hu & -> & _)]; [done|].
  rewrite length_append in Hlen. destruct u; [done|cbn in Hlen; lia].
Qed.

Lemma occurrences_tail_borderless (m : string) :
  borderless m →
  ∀ u w y, w ≠ EmptyString → m = w +:+ u → occurrences m (u +:+ y) = occurrences m y.
Proof.
  intros Hb. induction u as [|a u IH]; intros w y Hw Hm; [done|].
  rewrite append_cons, occurrences_cons, <- append_cons.
  rewrite (IH (w +:+ String a EmptyString) y);
    [| by destruct w | by rewrite append_assoc].
  destruct (String.prefix m (String a u +:+ y)) eqn:Hp; [|done].
  exfalso.
  assert (String.length w ≠ 0) as Hlw by (by destruct w).
  destruct (prefix_app_split _ _ _ Hp) as [Hp'|(v & Hv & Hm' & _)].
  - apply prefix_length in Hp'. rewrite Hm, length_append in Hp'. lia.
  - assert (String.prefix (String a u) m = true) as Hpre
      by (rewrite Hm'; apply prefix_app_same).
    by rewrite (Hb w (String a u) Hw ltac:(done) Hm) in Hpre.
Qed.

(** Around an occurrence of a borderless marker, the occurrences are those
    of the text before it and those of the text after it. *)
Lemma occurrences_borderless (m x y : string) :
  borderless m → m ≠ EmptyString →
  occurrences m (x +:+ m +:+ y) = occurrences m x + 1 + occurrences m y.
Proof.
  intros Hb Hm. induction x as [|a x IH].
  - rewrite append_empty_l, occurrences_empty by done.
    destruct m as [|b m'] eqn:Em; [done|]. rewrite <- Em in *.
    assert (m +:+ y = String b (m' +:+ y)) as -> by (by rewrite Em).
    rewrite occurrences_cons.
    assert (String b (m' +:+ y) = m +:+ y) as -> by (by rewrite Em).
    rewrite prefix_app_same.
    rewrite (occurrences_tail_borderless m Hb m' (String b EmptyString) y);
      [lia|done|by rewrite Em].
  - rewrite append_cons, !occurrences_cons, IH, <- append_cons.
    destruct (String.prefix m (String a x)) eqn:Hp.
    + rewrite (prefix_app_mono _ _ _ Hp). lia.
    + destruct (String.prefix m (String a x +:+ m +:+ y)) eqn:Hq; [|lia].
      exfalso.
      destruct (prefix_app_split _ _ _ Hq) as [Hp'|(v & Hv & Hm' & Hpv)];
        [by rewrite Hp' in Hp|].
      assert (String.prefix v m = true) as Hpre.
      { apply (prefix_app_short v m y Hpv). rewrite Hm', length_append. lia. }
      by rewrite (Hb (String a x) v ltac:(done) Hv Hm') in Hpre.
Qed.

Ltac no_border :=
  let x := fresh "x" in let v := fresh "v" in
  let Hx := fresh "Hx" in let Hv := fresh "Hv" in let Hm := fresh "Hm" in
  intros x v Hx Hv Hm;
  destruct x as [|? x]; [done|];
  rewrite append_cons in Hm; injection Hm as _ Hm;
  repeat (destruct x as [|? x];
          [ rewrite append_empty_l in Hm; subst v; first [reflexivity|done]
          | rewrite append_cons in Hm; first [discriminate Hm | injection Hm as _ Hm] ]).

Lemma borderless_TITLE : borderless "TITLE:".
Proof. no_border. Qed.

Lemma borderless_PART_2 : borderless "PART_2:".
Proof. no_border. Qed.

Lemma split_first (sep x y : string) :
  borderless sep → sep ≠ EmptyString →
  occurrences sep x = 0 →
  split sep (x +:+ sep +:+ y) = x :: split sep y.
Proof.
  intros Hb Hsep Hx. unfold split.
  rewrite split_go_first by (done || (rewrite occurrences_borderless by done; lia)).
  by destruct (split_go sep 0 y).
Qed.

Lemma split_present (sep s : string) :
  sep ≠ EmptyString → 1 ≤ occurrences sep s →
  ∃ x y ps, split sep s = x :: y :: ps.
Proof.
  intros Hsep. unfold split.
  assert (1 ≤ occurrences sep s → snd (split_go sep 0 s) ≠ []) as Hgo.
  { induction s as [|a s IH].
    - rewrite occurrences_empty by done. lia.
    - rewrite occurrences_cons. cbn [split_go].
      destruct (String.prefix sep (String a s)).
      + intros _. cbn [snd].
        by destruct (split_go sep (String.length sep - 1) s).
      + intros H. specialize (IH ltac:(lia)).
        by destruct (split_go sep 0 s). }
  intros H. specialize (Hgo H).
  destruct (split_go sep 0 s) as [x [|y ps]]; [done|]. eauto.
Qed.

Lemma join_infix (sep b : string) (l : list string) :
  b ∈ l → ∃ u v, join sep l = u +:+ b +:+ v.
Proof.
  induction l as [|a l IH]; [by intros ?%elem_of_nil|].
  intros [->|Hin]%elem_of_cons.
  - destruct (join_head sep a l) as [rest ->]. by exists EmptyString, rest.
  - destruct l as [|a' l]; [by apply elem_of_nil in Hin|].
    destruct (IH Hin) as (u & v & Hj).
    exists (a +:+ sep +:+ u), v. rewrite join_cons2, Hj. by rewrite !append_assoc.
Qed.

Lemma occurrences_infix (sep u b v : string) :
  sep ≠ EmptyString → occurrences sep b ≤ occurrences sep (u +:+ b +:+ v).
Proof.
  intros Hsep.
  pose proof (occurrences_app sep u (b +:+ v) Hsep).
  pose proof (occurrences_app sep b v Hsep). lia.
Qed.

Lemma occurrences_strip (sep s : string) :
  sep ≠ EmptyString → occurrences sep (strip s) ≤ occurrences sep s.
Proof.
  intros Hsep. destruct (strip_trimmed s) as [(l & r & Hs & _) _].
  rewrite Hs at 2. by apply occurrences_infix.
Qed.

Ltac result_steps :=
  cbv zeta;
  repeat (rewrite bind_Ok || rewrite bind_Raise || rewrite getitem_first
          || rewrite getitem_second || rewrite getitem_single_second).

(** What a reply that parses looks like from the parser's side. *)
Lemma parse_response_inv (t part1 part2 title : string) :
  parse_response {| text := Ok t |} = Ok (part1, part2, title) →
  ∃ p ps x y rest p' b r',
    split "PART_2:" t = p :: ps
    ∧ split "TITLE:" t = x :: y :: rest
    ∧ split "PART_2:" x = p' :: b :: r'
    ∧ part1 = strip (replace "PART_1:" "" p)
    ∧ part2 = strip b
    ∧ title = strip y.
Proof.
  unfold parse_response. cbn [text]. result_steps.
  destruct (split "PART_2:" t) as [|p ps] eqn:S1; [by apply split_nonempty in S1|].
  result_steps.
  destruct (split "TITLE:" t) as [|x [|y rest]] eqn:S2;
    [by apply split_nonempty in S2| |].
  - result_steps. destruct (getitem (split "PART_2:" x) 1); result_steps; [|done].
    rewrite S2. by result_steps.
  - result_steps.
    destruct (split "PART_2:" x) as [|p' [|b r']] eqn:S3;
      [by apply split_nonempty in S3|by result_steps|].
    result_steps. rewrite S2. result_steps. intros [= <- <- <-].
    by exists p, ps, x, y, rest, p', b, r'.
Qed.

Lemma parse_response_succeeds (x y : string) :
  occurrences "TITLE:" x = 0 →
  1 ≤ occurrences "PART_2:" x →
  ∃ q, parse_response {| text := Ok (x +:+ "TITLE:" +:+ y) |} = Ok q.
Proof.
  intros Hx H2.
  pose proof (split_first "TITLE:" x y borderless_TITLE ltac:(done) Hx) as S2.
  destruct (split "TITLE:" y) as [|y' rest] eqn:Sy; [by apply split_nonempty in Sy|].
  destruct (split_present "PART_2:" x ltac:(done) H2) as (p' & b & r' & S3).
  destruct (split "PART_2:" (x +:+ "TITLE:" +:+ y)) as [|p ps] eqn:S1;
    [by apply split_nonempty in S1|].
  unfold parse_response. cbn [text]. result_steps.
  rewrite S1. result_steps. rewrite S2. result_steps. rewrite S3. result_steps.
  rewrite S2. result_steps. eauto.
Qed.

End MarkerFacts.

Section ParserExtras.
Import Py Generator Samples.

(** X6. A reply parses exactly when TITLE: occurs in it and PART_2: occurs
    in the text before the first TITLE:.  Nothing else is asked of a reply:
    not PART_1:, not the order of lines, not the absence of further
    markers. *)
Theorem parse_response_succeeds_iff (t : string) :
  (∃ q, parse_response {| text := Ok t |} = Ok q)
  ↔ ∃ x y, t = x +:+ "TITLE:" +:+ y
           ∧ occurrences "TITLE:" x = 0
           ∧ 1 ≤ occurrences "PART_2:" x.
Proof.
  split.
  - intros [[[part1 part2] title] Hparse].
    destruct (parse_response_inv _ _ _ _ Hparse)
      as (p & ps & x & y & rest & p' & b & r' & _ & S2 & S3 & _).
    exists x, (join "TITLE:" (y :: rest)).
    split; [|split].
    + by rewrite <- join_cons2, <- S2, join_split.
    + pose proof (split_pieces "TITLE:" t ltac:(done)) as Hall.
      rewrite S2 in Hall. by apply Forall_cons in Hall as [Hx _].
    + destruct (occurrences "PART_2:" x) as [|n] eqn:Ho; [|lia].
      by rewrite (split_absent _ _ Ho) in S3.
  - intros (x & y & -> & Hx & H2). by apply parse_response_succeeds.
Qed.

(** X7. In every triple the parser returns, the second part contains
    neither PART_2: nor TITLE:, and the title does not contain TITLE:, however
    many markers the reply has. *)
Theorem parsed_parts_marker_free (t part1 part2 title : string) :
  parse_response {| text := Ok t |} = Ok (part1, part2, title) →
  occurrences "PART_2:" part2 = 0
  ∧ occurrences "TITLE:" part2 = 0
  ∧ occurrences "TITLE:" title = 0.
Proof.
  intros Hparse.
  destruct (parse_response_inv _ _ _ _ Hparse)
    as (p & ps & x & y & rest & p' & b & r' & _ & S2 & S3 & _ & -> & ->).
  pose proof (split_pieces "TITLE:" t ltac:(done)) as Ht. rewrite S2 in Ht.
  apply Forall_cons in Ht as [Hx Ht]. apply Forall_cons in Ht as [Hy _].
  pose proof (split_pieces "PART_2:" x ltac:(done)) as Hp. rewrite S3 in Hp.
  apply Forall_cons in Hp as [_ Hp]. apply Forall_cons in Hp as [Hb _].
  assert (occurrences "TITLE:" b = 0) as Hbt.
  { destruct (join_infix "PART_2:" b (p' :: b :: r')) as (u & v & Hj);
      [set_solver|].
    rewrite <- S3, join_split in Hj by done.
    pose proof (occurrences_infix "TITLE:" u b v ltac:(done)) as Hle.
    rewrite <- Hj in Hle. lia. }
  pose proof (occurrences_strip "PART_2:" b ltac:(done)).
  pose proof (occurrences_strip "TITLE:" b ltac:(done)).
  pose proof (occurrences_strip "TITLE:" y ltac:(done)).
  lia.
Qed.

Lemma parsed_parts_marker_free_witness :
  parse_response {| text := Ok "a PART_2: b PART_2: c TITLE: d TITLE: e" |}
  = Ok ("a", "b", "d")
  ∧ occurrences "PART_2:" "b" = 0.
Proof.
  assert (parse_response {| text := Ok "a PART_2: b PART_2: c TITLE: d TITLE: e" |}
          = Ok ("a", "b", "d")) as Hparse by reflexivity.
  split; [exact Hparse|].
  exact (proj1 (parsed_parts_marker_free _ _ _ _ Hparse)).
Defined.

End ParserExtras.

(** * The main block *)

Section DriverFacts.
Import Py Selector Generator Driver.
Context (O : outside).

Lemma log_to_sheet_run (part1 part2 title filename status : string) (w : world) :
  log_to_sheet O part1 part2 title filename status w
  = (Value tt, add_action (AppendRow [part1; part2; title; filename; status]) w).
Proof.
  unfold log_to_sheet, prog_try, act. cbv zeta.
  by destruct (append_row O _) as [[]|e].
Qed.

(** The upload stage, outcome by outcome. *)
Lemma upload_stage_cases (part1 part2 title output : string) (w : world) :
  let description := part1 +:+ " " +:+ part2 +:+ nl +:+ nl +:+ hashtags in
  upload_stage O part1 part2 title output w
  = match get_authenticated_service O with
    | Raise e => (Value (failed O e), add_action Authenticate w)
    | Ok _ =>
        match generate_extra_tags (services O) title (part1 +:+ " " +:+ part2) (calls w) with
        | (Raise e, log) => (Value (failed O e), set_calls log (add_action Authenticate w))
        | (Ok ai_tags, log) =>
            let final_tags := elements (list_to_set (base_tags ++ ai_tags) : gset string) in
            let w' := add_action (Upload output title description final_tags "public")
                        (set_calls log (add_action Authenticate w)) in
            match upload_video O output title description final_tags "public" with
            | Ok _ => (Value "Uploaded to YouTube", w')
            | Raise e => (Value (failed O e), w')
            end
        end
    end.
Proof.
  intros description. unfold upload_stage, prog_try.
  unfold mbind at 1. unfold Prog_bind, act at 1.
  destruct (get_authenticated_service O) as [[]|e]; [|reflexivity].
  cbn [of_result]. unfold mbind at 1. unfold Prog_bind, call.
  change (calls (add_action Authenticate w)) with (calls w).
  destruct (generate_extra_tags _ _ _ _) as [[ai|e] log]; [|reflexivity].
  cbn [of_result]. cbv zeta. unfold mbind, Prog_bind, act.
  by destruct (upload_video O _ _ _ _ _) as [[]|e].
Qed.

Lemma main_unfold (w : world) :
  main O w
  = match configure_gemini O with
    | Raise e => (Exited (GeminiAuthFailed e), w)
    | Ok _ =>
      match open_sheet O with
      | Raise e => (Exited (SheetsAuthFailed e), w)
      | Ok _ =>
        if negb (verify_media_files (disk w)) then (Exited MissingMedia, w)
        else
          match get_user_choice O w with
          | (Value choice, _) =>
              if String.eqb choice "1" || String.eqb choice "2" then
                match create_quote_content (services O) (calls w) with
                | (Raise e, log) => (Raised e, set_calls log w)
                | (Ok (part1, part2, title), log) =>
                    if String.eqb part1 "Error"
                    then (Exited GenerationFailed, set_calls log w)
                    else
                      let output := "quote_" +:+ str (unix_time O) +:+ ".mp4" in
                      match generate_video_with_music O part1 part2 output (set_calls log w) with
                      | (Value _, w2) =>
                          match (if String.eqb choice "2"
                                 then upload_stage O part1 part2 title output
                                 else mret "Generated Locally") w2 with
                          | (Value status, w3) =>
                              log_to_sheet O part1 part2 title output status w3
                          | (Raised e, w3) => (Raised e, w3)
                          | (Exited why, w3) => (Exited why, w3)
                          end
                      | (Raised e, w2) => (Raised e, w2)
                      | (Exited why, w2) => (Exited why, w2)
                      end
                end
              else (Value tt, w)
          | (Raised e, _) => (Raised e, w)
          | (Exited why, _) => (Exited why, w)
          end
      end
    end.
Proof.
  unfold main. unfold mbind at 1. unfold Prog_bind, startup.
  destruct (configure_gemini O) as [[]|e]; [|reflexivity].
  destruct (open_sheet O) as [[]|e]; [|reflexivity].
  cbv zeta. unfold mbind at 1. unfold Prog_bind.
  destruct (verify_media_files (disk w)); [|reflexivity]. cbn [negb].
  unfold mbind at 1. unfold Prog_bind.
  unfold get_user_choice.
  destruct (truthy (GITHUB_ACTIONS O)).
  - cbn [String.eqb Ascii.eqb Bool.eqb orb].
    unfold mbind at 1. unfold Prog_bind, call.
    destruct (create_quote_content (services O) (calls w)) as [[[[p1 p2] t]|e] log];
      [|reflexivity].
    cbn [of_result]. destruct (String.eqb p1 "Error"); [reflexivity|].
    unfold mbind at 1. unfold Prog_bind.
    destruct (generate_video_with_music O p1 p2 _ _) as [[[]|e|why] w2]; reflexivity.
  - destruct (input O) as [choice|e]; [|reflexivity]. cbn [of_result].
    destruct (String.eqb choice "1" || String.eqb choice "2"); [|reflexivity].
    unfold mbind at 1. unfold Prog_bind, call.
    destruct (create_quote_content (services O) (calls w)) as [[[[p1 p2] t]|e] log];
      [|reflexivity].
    cbn [of_result]. destruct (String.eqb p1 "Error"); [reflexivity|].
    unfold mbind at 1. unfold Prog_bind.
    destruct (generate_video_with_music O p1 p2 _ _) as [[[]|e|why] w2]; reflexivity.
Qed.

Lemma get_user_choice_world (w : world) : snd (get_user_choice O w) = w.
Proof. unfold get_user_choice. by destruct (truthy (GITHUB_ACTIONS O)). Qed.

(** Past the three gates, the main block is the generator and what follows. *)
Lemma main_ready (w : world) (choice : string) :
  ready O w choice →
  main O w
  = match create_quote_content (services O) (calls w) with
    | (Raise e, log) => (Raised e, set_calls log w)
    | (Ok (part1, part2, title), log) =>
        if String.eqb part1 "Error"
        then (Exited GenerationFailed, set_calls log w)
        else
          match generate_video_with_music O part1 part2 (output_filename O)
                  (set_calls log w) with
          | (Value _, w2) =>
              match (if String.eqb choice "2"
                     then upload_stage O part1 part2 title (output_filename O)
                     else mret "Generated Locally") w2 with
              | (Value status, w3) =>
                  log_to_sheet O part1 part2 title (output_filename O) status w3
              | (Raised e, w3) => (Raised e, w3)
              | (Exited why, w3) => (Exited why, w3)
              end
          | (Raised e, w2) => (Raised e, w2)
          | (Exited why, w2) => (Exited why, w2)
          end
    end.
Proof.
  intros (H1 & H2 & H3 & H4 & H5). rewrite main_unfold, H1, H2, H3, H4. cbn [negb].
  by destruct H5 as [-> | ->].
Qed.

(** The video stage on a world that passes the media check. *)
Lemma video_stage_checked (part1 part2 output : string) (w : world) :
  verify_media_files (disk w) = true →
  ∃ m s,
    choose_media (random_draw (services O) (draws (calls w))) (disk w) = Return (m, s)
    ∧ generate_video_with_music O part1 part2 output w
      = (of_result (write_videofile O part1 part2 m (chosen_video_path s) output),
         {| disk := {| psych_music := psych_music (disk w);
                       psych_temp := Some (folder_after s) |};
            calls := calls w ++ [RandomChoice];
            actions := actions w ++ [Render part1 part2 m (chosen_video_path s) output] |}).
Proof.
  intros Hv.
  destruct (proj1 (verify_media_files_iff
                     (random_draw (services O) (draws (calls w))) (disk w)) Hv)
    as (m & s & Hc).
  exists m, s. split; [exact Hc|].
  unfold generate_video_with_music. rewrite Hc.
  destruct (choose_media_inv _ _ _ _ Hc) as (music & _ & _ & -> & _). reflexivity.
Qed.


Lemma sequential_selector_writes (dir : gmap string string) (s : selection) :
  sequential_selector dir = Return s →
  folder_after s = <[state_file := str (next_index s)]> dir.
Proof.
  intros Hrun.
  assert (1 ≤ Z.of_nat (length (available_videos dir)))%Z as HN.
  { destruct (available_videos dir) eqn:Hv; [|cbn [length]; lia].
    by rewrite (sequential_selector_empty dir Hv) in Hrun. }
  destruct (last_index_total dir) as [L HL].
  rewrite (sequential_selector_run dir L HN HL) in Hrun. by injection Hrun as <-.
Qed.

End DriverFacts.

Section DriverExtras.
Import Py Selector Generator Samples Driver DriverSamples.


(** X8. The main block asks the model only after both logins, the media
    check and a choice of 1 or 2; it renders, uploads, logs or touches the
    folders only if, on top of that, the generator has returned a quote whose
    first part is not "Error". *)
Theorem main_gates (O : outside) (w w' : world) (r : ending unit) :
  main O w = (r, w') →
  (calls w' ≠ calls w → ∃ choice, ready O w choice)
  ∧ (actions w' ≠ actions w ∨ disk w' ≠ disk w →
     ∃ choice part1 part2 title,
       ready O w choice
       ∧ fst (create_quote_content (services O) (calls w)) = Ok (part1, part2, title)
       ∧ part1 ≠ "Error").
Proof.
  rewrite main_unfold.
  assert (∀ x : ending unit, (x, w) = (r, w') →
            (calls w' ≠ calls w → ∃ choice, ready O w choice)
            ∧ (actions w' ≠ actions w ∨ disk w' ≠ disk w →
               ∃ choice part1 part2 title,
                 ready O w choice
                 ∧ fst (create_quote_content (services O) (calls w))
                   = Ok (part1, part2, title)
                 ∧ part1 ≠ "Error")) as Hsame
    by (intros x [= _ <-]; split; [done|intros [?|?]; done]).
  destruct (configure_gemini O) as [[]|e1] eqn:H1; [|apply Hsame].
  destruct (open_sheet O) as [[]|e2] eqn:H2; [|apply Hsame].
  destruct (verify_media_files (disk w)) eqn:H3; [|apply Hsame]. cbn [negb].
  pose proof (get_user_choice_world O w) as Hw.
  destruct (get_user_choice O w) as [[c|e|why] w1] eqn:H4; [|apply Hsame..].
  cbn [snd] in Hw. subst w1.
  destruct (String.eqb c "1" || String.eqb c "2") eqn:H5; [|apply Hsame].
  assert (ready O w c) as Hready.
  { repeat split; try done.
    apply orb_true_iff in H5 as [?%String.eqb_eq|?%String.eqb_eq]; auto. }
  destruct (create_quote_content (services O) (calls w)) as [[[[p1 p2] t]|e] log] eqn:Hq.
  - destruct (String.eqb_spec p1 "Error") as [->|Hne].
    + intros [= _ <-]. split; [eauto|]. intros [H|H]; cbn in H; congruence.
    + intros _. split; [eauto|]. intros _. exists c, p1, p2, t.
      split; [exact Hready|]. split; [reflexivity|exact Hne].
  - intros [= _ <-]. split; [eauto|]. intros [H|H]; cbn in H; congruence.
Qed.

Lemma main_gates_witness :
  ∃ choice part1 part2 title,
    ready smooth (begin stocked) choice
    ∧ fst (create_quote_content obliging []) = Ok (part1, part2, title)
    ∧ part1 ≠ "Error".
Proof.
  destruct (main smooth (begin stocked)) as [r w'] eqn:Hrun.
  apply (proj2 (main_gates smooth (begin stocked) w' r Hrun)).
  left. vm_compute in Hrun. injection Hrun as _ <-. discriminate.
Defined.

(** X9. A quote whose first part is "Error" stops the run as a failed
    generation, be it the sentinel after five attempts or a reply that parsed:
    nothing is rendered, uploaded or logged and no folder is touched. *)
Theorem error_hook_stops_run (O : outside) (w : world) (choice part2 title : string) :
  ready O w choice →
  fst (create_quote_content (services O) (calls w)) = Ok ("Error", part2, title) →
  ∃ w', main O w = (Exited GenerationFailed, w')
        ∧ disk w' = disk w
        ∧ actions w' = actions w.
Proof.
  intros Hready Hq. rewrite (main_ready O w choice Hready).
  destruct (create_quote_content (services O) (calls w)) as [q log].
  cbn [fst] in Hq. subst q. cbn [String.eqb Ascii.eqb Bool.eqb]. eauto.
Qed.

Lemma error_hook_stops_run_witness :
  fst (create_quote_content error_hook []) = Ok ("Error", "is human", "To Err")
  ∧ generations (snd (create_quote_content error_hook [])) = 1
  ∧ ∃ w', main (with_services error_hook smooth) (begin stocked)
          = (Exited GenerationFailed, w')
          ∧ actions w' = [].
Proof.
  split; [reflexivity|]. split; [reflexivity|].
  destruct (error_hook_stops_run (with_services error_hook smooth) (begin stocked)
              "2" "is human" "To Err") as (w' & Hrun & _ & Ha).
  - repeat split; try reflexivity. by right.
  - reflexivity.
  - exists w'. split; [exact Hrun|exact Ha].
Defined.



(** X11. When the composition toolkit raises, the run ends with that
    exception after the selector has already written the state file: the
    index has advanced, the render call is the only action, and no row is
    logged. *)
Theorem render_failure_keeps_state (O : outside) (w : world)
    (choice part1 part2 title m : string) (log : list event) (s : selection) (e : exn) :
  ready O w choice →
  create_quote_content (services O) (calls w) = (Ok (part1, part2, title), log) →
  part1 ≠ "Error" →
  choose_media (random_draw (services O) (draws log)) (disk w) = Return (m, s) →
  write_videofile O part1 part2 m (chosen_video_path s) (output_filename O) = Raise e →
  ∃ w' dir,
    main O w = (Raised e, w')
    ∧ psych_temp (disk w) = Some dir
    ∧ psych_temp (disk w') = Some (<[state_file := str (next_index s)]> dir)
    ∧ actions w'
      = actions w ++ [Render part1 part2 m (chosen_video_path s) (output_filename O)].
Proof.
  intros Hready Hq Hne Hmedia Hrender.
  rewrite (main_ready O w choice Hready), Hq.
  destruct (String.eqb_spec part1 "Error") as [?|_]; [done|].
  destruct Hready as (_ & _ & Hv & _ & _).
  destruct (video_stage_checked O part1 part2 (output_filename O) (set_calls log w) Hv)
    as (m' & s' & Hmedia' & ->).
  cbn [set_calls calls disk] in Hmedia'. rewrite Hmedia in Hmedia'.
  injection Hmedia' as <- <-. rewrite Hrender. cbn [of_result].
  destruct (choose_media_inv _ _ _ _ Hmedia) as (music & dir & _ & _ & Hd & _ & _ & Hs).
  eexists _, dir. split; [reflexivity|]. split; [exact Hd|]. cbn.
  split; [|reflexivity]. by rewrite (sequential_selector_writes dir s Hs).
Qed.

Lemma render_failure_keeps_state_witness :
  ∃ w' dir,
    main (encoder_broken smooth) (begin stocked) = (Raised (OtherError "OSError"), w')
    ∧ psych_temp (disk w') = Some dir
    ∧ dir !! state_file = Some "0"
    ∧ Forall (fun a => is_append a = false) (actions w').
Proof.
  destruct (create_quote_content obliging []) as [q log] eqn:Hq.
  assert (q = Ok ("A", "B", "C")) as -> by (vm_compute in Hq; congruence).
  assert (draws log = 1) as Hd by (vm_compute in Hq; injection Hq as <-; reflexivity).
  destruct (choose_media (random_draw obliging (draws log)) stocked) as [[m s]|h] eqn:Hm;
    [|rewrite Hd in Hm; vm_compute in Hm; discriminate Hm].
  assert (next_index s = 0%Z) as Hn
    by (rewrite Hd in Hm; vm_compute in Hm; injection Hm as _ <-; reflexivity).
  destruct (render_failure_keeps_state (encoder_broken smooth) (begin stocked)
              "2" "A" "B" "C" m log s (OtherError "OSError"))
    as (w' & dir & Hrun & Hdir & Hdisk & Hactions).
  - repeat split; try reflexivity. by right.
  - exact Hq.
  - discriminate.
  - exact Hm.
  - reflexivity.
  - exists w'. eexists. split; [exact Hrun|]. split; [exact Hdisk|].
    split; [by rewrite lookup_insert_eq, Hn|].
    rewrite Hactions. by repeat constructor.
Defined.

Lemma create_quote_content_generations (E : env) (log : list event) :
  generations (snd (create_quote_content E log)) ≤ generations log + 5.
Proof.
  destruct (create_quote_content_log E log) as (k & Hk & ->).
  rewrite (proj2 (run_log_counts E _ log k)). unfold MAX_ATTEMPTS in Hk. lia.
Qed.

(** X12. With choice 1 the run never logs in to the upload module, never
    uploads and never asks the model for tags: the model is called at most
    five times, and the only actions are the render call and the logged
    row. *)
Theorem local_mode_never_uploads (O : outside) (w w' : world) (r : ending unit) :
  get_user_choice O w = (Value "1", w) →
  main O w = (r, w') →
  ∃ added,
    actions w' = actions w ++ added
    ∧ Forall (fun a => a ≠ Authenticate ∧ is_upload a = false) added
    ∧ generations (calls w') ≤ generations (calls w) + 5.
Proof.
  intros Hchoice. rewrite main_unfold, Hchoice.
  assert (∀ x : ending unit, (x, w) = (r, w') →
            ∃ added, actions w' = actions w ++ added
              ∧ Forall (fun a => a ≠ Authenticate ∧ is_upload a = false) added
              ∧ generations (calls w') ≤ generations (calls w) + 5) as Hsame.
  { intros x [= _ <-]. exists []. rewrite app_nil_r.
    split; [done|]. split; [constructor|lia]. }
  destruct (configure_gemini O) as [[]|e1]; [|apply Hsame].
  destruct (open_sheet O) as [[]|e2]; [|apply Hsame].
  destruct (verify_media_files (disk w)) eqn:Hv; [|apply Hsame].
  cbn [negb String.eqb Ascii.eqb Bool.eqb orb].
  pose proof (create_quote_content_generations (services O) (calls w)) as Hg.
  destruct (create_quote_content (services O) (calls w)) as [[[[p1 p2] t]|e] log].
  - cbn [snd] in Hg. destruct (String.eqb p1 "Error").
    + intros [= _ <-]. exists []. rewrite app_nil_r.
      unfold set_calls; cbn [calls actions disk].
      split; [done|]. split; [constructor|lia].
    + cbv zeta.
      destruct (video_stage_checked O p1 p2 (output_filename O) (set_calls log w) Hv)
        as (m & s & _ & Hstage).
      unfold output_filename in Hstage. rewrite Hstage.
      assert (generations (log ++ [RandomChoice]) ≤ generations (calls w) + 5) as Hg'
        by (rewrite generations_app; cbn; lia).
      destruct (write_videofile O _ _ _ _ _) as [[]|e]; cbn [of_result].
      * unfold mret, Prog_ret. rewrite log_to_sheet_run.
        intros [= _ <-]. unfold add_action; cbn [calls actions disk].
        eexists. rewrite <- app_assoc.
        split; [reflexivity|]. split; [|exact Hg'].
        repeat constructor; done.
      * intros [= _ <-]. cbn [calls actions disk].
        eexists. split; [reflexivity|]. split; [|exact Hg'].
        repeat constructor; done.
  - cbn [snd] in Hg. intros [= _ <-]. exists []. rewrite app_nil_r.
      unfold set_calls; cbn [calls actions disk].
    split; [done|]. split; [constructor|lia].
Qed.

Lemma local_mode_never_uploads_witness :
  ∃ added w',
    main (at_terminal "1" smooth) (begin stocked) = (Value tt, w')
    ∧ actions w' = added
    ∧ Forall (fun a => a ≠ Authenticate ∧ is_upload a = false) added.
Proof.
  destruct (main (at_terminal "1" smooth) (begin stocked)) as [r w'] eqn:Hrun.
  destruct (local_mode_never_uploads (at_terminal "1" smooth) (begin stocked) w' r
              eq_refl Hrun) as (added & Ha & Hall & _).
  exists added, w'. split; [|split; [exact Ha|exact Hall]].
  f_equal. vm_compute in Hrun. by injection Hrun as <- _.
Defined.


(** [list(set(l))] has the members of [l], each once. *)
Lemma list_set_list (l : list string) :
  NoDup (elements (list_to_set l : gset string))
  ∧ ∀ x, x ∈ elements (list_to_set l : gset string) ↔ x ∈ l.
Proof.
  split; [apply NoDup_elements|].
  intros x. by rewrite elem_of_elements, elem_of_list_to_set.
Qed.

(** X14. The upload stage never raises and never stops the process; it
    leaves the folders alone.  Its status is "Uploaded to YouTube" only after
    an upload that returned; a refused login gives the failure status without
    any call of the model or of the upload, and a failed tag request gives it
    without any upload. *)
Theorem upload_stage_contained (O : outside) (part1 part2 title output : string)
    (w : world) :
  ∃ status w',
    upload_stage O part1 part2 title output w = (Value status, w')
    ∧ disk w' = disk w
    ∧ (status = "Uploaded to YouTube" ∨ ∃ e, status = failed O e)
    ∧ (status = "Uploaded to YouTube" →
       ∃ description tags,
         upload_video O output title description tags "public" = Ok tt
         ∧ last (actions w') = Some (Upload output title description tags "public"))
    ∧ (∀ e, get_authenticated_service O = Raise e →
         status = failed O e
         ∧ calls w' = calls w
         ∧ actions w' = actions w ++ [Authenticate])
    ∧ (∀ e, get_authenticated_service O = Ok tt →
         fst (generate_extra_tags (services O) title (part1 +:+ " " +:+ part2) (calls w))
         = Raise e →
         status = failed O e ∧ actions w' = actions w ++ [Authenticate]).
Proof.
  rewrite upload_stage_cases.
  destruct (get_authenticated_service O) as [[]|e0].
  - destruct (generate_extra_tags _ _ _ _) as [[ai|e1] log].
    + cbv zeta. destruct (upload_video O _ _ _ _ _) as [[]|e2] eqn:Hup.
      * eexists _, _. split; [reflexivity|]. split; [reflexivity|].
        split; [by left|]. split; [|split; [intros ? [=]|intros ? _ [=]]].
        intros _. eexists _, _. split; [exact Hup|]. cbn. apply last_snoc.
      * eexists _, _. split; [reflexivity|]. split; [reflexivity|].
        split; [eauto|]. split; [intros [=]|split; [intros ? [=]|intros ? _ [=]]].
    + eexists _, _. split; [reflexivity|]. split; [reflexivity|].
      split; [eauto|]. split; [intros [=]|split; [intros ? [=]|]].
      intros ? _ [= <-]. by split.
  - eexists _, _. split; [reflexivity|]. split; [reflexivity|].
    split; [eauto|]. split; [intros [=]|split; [|intros ? [=]]].
    intros ? [= <-]. by repeat split.
Qed.

(** X15. What the upload stage hands to the upload module: the rendered
    file, the title, the two parts followed by the hashtag line, privacy
    "public", and a tag list without duplicates whose members are exactly the
    six fixed tags and the tags the model returned. *)
Theorem upload_metadata (O : outside) (part1 part2 title output : string) (w : world)
    (added : list action) (file_path title' description privacy : string)
    (tags : list string) :
  actions (snd (upload_stage O part1 part2 title output w)) = actions w ++ added →
  Upload file_path title' description tags privacy ∈ added →
  file_path = output
  ∧ title' = title
  ∧ description = part1 +:+ " " +:+ part2 +:+ nl +:+ nl +:+ hashtags
  ∧ privacy = "public"
  ∧ NoDup tags
  ∧ ∃ ai_tags,
      fst (generate_extra_tags (services O) title (part1 +:+ " " +:+ part2) (calls w))
      = Ok ai_tags
      ∧ ∀ x, x ∈ tags ↔ x ∈ base_tags ∨ x ∈ ai_tags.
Proof.
  rewrite upload_stage_cases.
  destruct (get_authenticated_service O) as [[]|e0].
  - destruct (generate_extra_tags _ _ _ _) as [[ai|e1] log].
    + cbv zeta.
      assert (∀ st : string,
                actions (snd (Value st,
                   add_action (Upload output title
                                 (part1 +:+ " " +:+ part2 +:+ nl +:+ nl +:+ hashtags)
                                 (elements (list_to_set (base_tags ++ ai) : gset string))
                                 "public")
                     (set_calls log (add_action Authenticate w))))
                = actions w ++ added →
                Upload file_path title' description tags privacy ∈ added →
                file_path = output ∧ title' = title
                ∧ description = part1 +:+ " " +:+ part2 +:+ nl +:+ nl +:+ hashtags
                ∧ privacy = "public" ∧ NoDup tags
                ∧ ∃ ai_tags, fst (Ok ai, log) = Ok ai_tags
                    ∧ ∀ x, x ∈ tags ↔ x ∈ base_tags ∨ x ∈ ai_tags) as Hcase.
      { intros st Ha Hin. cbn in Ha. rewrite <- app_assoc in Ha.
        apply app_inv_head in Ha. subst added.
        apply elem_of_cons in Hin as [[=]|Hin].
        apply list_elem_of_singleton in Hin. injection Hin as -> -> -> -> ->.
        destruct (list_set_list (base_tags ++ ai)) as [Hnodup Hmem].
        split; [done|]. split; [done|]. split; [done|]. split; [done|].
        split; [exact Hnodup|].
        exists ai. split; [done|]. intros x.
        by rewrite Hmem, elem_of_app. }
      destruct (upload_video O _ _ _ _ _) as [[]|e2]; apply Hcase.
    + cbn. intros Ha Hin. apply app_inv_head in Ha. subst added.
      apply list_elem_of_singleton in Hin. discriminate Hin.
  - cbn. intros Ha Hin. apply app_inv_head in Ha. subst added.
    apply list_elem_of_singleton in Hin. discriminate Hin.
Qed.

Lemma upload_metadata_witness :
  ∃ tags description,
    last (actions (snd (upload_stage (with_services tagger smooth)
                          "A" "B" "C" "out.mp4" (begin stocked))))
    = Some (Upload "out.mp4" "C" description tags "public")
    ∧ NoDup tags
    ∧ "psychology" ∈ tags
    ∧ "b" ∈ tags.
Proof.
  set (run := upload_stage (with_services tagger smooth) "A" "B" "C" "out.mp4"
                (begin stocked)).
  assert (∃ tags description,
            actions (snd run)
            = actions (begin stocked)
              ++ [Authenticate; Upload "out.mp4" "C" description tags "public"])
    as (tags & description & Ha).
  { let v := eval vm_compute in (actions (snd run)) in
    match v with
    | [_; Upload _ _ ?d ?t _] => exists t, d
    end.
    vm_compute. reflexivity. }
  exists tags, description.
  destruct (upload_metadata (with_services tagger smooth) "A" "B" "C" "out.mp4"
              (begin stocked) _ "out.mp4" "C" description "public" tags Ha)
    as (_ & _ & _ & _ & Hnodup & ai & Hai & Hmem).
  { apply list_elem_of_In. right. by left. }
  split; [by rewrite Ha|]. split; [exact Hnodup|].
  assert (ai = ["a"; "b"; "c"]) as -> by (vm_compute in Hai; congruence).
  split; apply Hmem; [left|right]; apply list_elem_of_In; cbn [In base_tags]; auto.
Defined.



End DriverExtras.

(** * The history text *)

Section HistoryExtras.
Import Py Generator Samples.

(** X17. Reading the history never raises and reads the first column once.
    The text is "None." exactly when the read raised; otherwise it has one
    line "- quote" for each row after the first, the header row taking no
    part, and it is empty for a sheet with no rows. *)
Theorem read_history_text (E : env) (log : list event) :
  ∃ h,
    read_history E log = (Ok h, log ++ [SheetRead 1])
    ∧ (h = "None." ↔ ∃ e, sheet_col_values E (reads log) 1 = Raise e)
    ∧ (∀ header quotes,
         sheet_col_values E (reads log) 1 = Ok (header :: quotes) →
         h = join nl (map (fun quote => "- " +:+ quote) quotes))
    ∧ (sheet_col_values E (reads log) 1 = Ok [] → h = EmptyString).
Proof.
  unfold read_history, try_except, col_values.
  unfold mbind, M_bind, mret, M_ret.
  destruct (sheet_col_values E (reads log) 1) as [column|e].
  - eexists. split; [reflexivity|]. split; [|split].
    + split; [|by intros [? [=]]].
      destruct (drop 1 column) as [|q l]; [done|].
      destruct (join_head nl ("- " +:+ q) (map (fun quote => "- " +:+ quote) l))
        as [rest Hj].
      cbn [map]. rewrite Hj. discriminate.
    + by intros header quotes [= ->].
    + by intros [= ->].
  - exists "None.". split; [reflexivity|]. split; [|split; [intros ? ? [=]|intros [=]]].
    split; eauto.
Qed.

End HistoryExtras.
